(** * umzug: the [Migration] unit ([src/migration.ts]) and the run engine

    A shallow embedding of the TypeScript class [Migration] together with
    the parts of the engine that the specification describes around it.

    Modelling conventions.
    - JavaScript values are the inductive type [value]; an object is the
      ordered list of its own enumerable properties, a function is an
      object that carries a [callee].  Property reads have no getters or
      proxies, and inherited members other than [Function.prototype.apply]
      are not modelled.  Numbers are
      abstracted to integers plus [VNaN]: the class only observes their
      truthiness and their [typeof].
    - User code (custom resolver, name formatter, wrapper, the actions
      themselves, module loading, the settling of promises and the writes
      of the storage adapter) is foreign: its behaviour is supplied by an
      environment [Env] acting on an abstract world [W], and every foreign
      call may return or throw.
    - An [async] method is a computation in the monad [M]; a rejected
      promise is the outcome [Throw].
    - Every call site of interest leaves an [event] in a trace, so that
      statements such as "the action was never invoked" can be stated.
    - Paths follow the POSIX flavour of Node's [path] module. *)

From Stdlib Require Import String Ascii List ZArith Bool Arith Lia DecimalString.
Import ListNotations.
Local Open Scope string_scope.
Local Open Scope list_scope.

Set Implicit Arguments.
Set Warnings "-register-all".

(* ================================================================== *)
(** ** JavaScript values *)

Inductive callee : Type :=
| DefaultNameFormatter            (* (path) => _path.basename(path) *)
| UserFn (id : nat).              (* a function supplied by the user *)

Inductive value : Type :=
| VUndefined
| VNull
| VBool (b : bool)
| VNum (n : Z)
| VNaN
| VStr (s : string)
| VObj (fn : option callee) (props : list (string * value)).

Inductive js_type : Type :=
| TUndefined | TObject | TBoolean | TNumber | TString | TFunction.

Inductive error : Type :=
| JsError (msg : string)          (* new Error(msg) thrown by the class *)
| TypeError                       (* raised by the runtime itself *)
| Thrown (v : value).             (* thrown or rejected by user code *)

Inductive result (E A : Type) : Type :=
| Ok (a : A)
| Throw (e : E).

Arguments Ok {E A} a.
Arguments Throw {E A} e.

Definition typeof_ (v : value) : js_type :=
  match v with
  | VUndefined => TUndefined
  | VNull => TObject
  | VBool _ => TBoolean
  | VNum _ | VNaN => TNumber
  | VStr _ => TString
  | VObj (Some _) _ => TFunction
  | VObj None _ => TObject
  end.

Definition type_name (t : js_type) : string :=
  match t with
  | TUndefined => "undefined"
  | TObject => "object"
  | TBoolean => "boolean"
  | TNumber => "number"
  | TString => "string"
  | TFunction => "function"
  end.

Definition js_type_eqb (a b : js_type) : bool :=
  match a, b with
  | TUndefined, TUndefined | TObject, TObject | TBoolean, TBoolean
  | TNumber, TNumber | TString, TString | TFunction, TFunction => true
  | _, _ => false
  end.

(** ToBoolean. *)
Definition truthy (v : value) : bool :=
  match v with
  | VUndefined | VNull | VNaN => false
  | VBool b => b
  | VNum n => negb (Z.eqb n 0)
  | VStr s => negb (String.eqb s "")
  | VObj _ _ => true
  end.

Fixpoint lookup (A : Type) (k : string) (ps : list (string * A)) : option A :=
  match ps with
  | [] => None
  | (k', v) :: r => if String.eqb k k' then Some v else lookup k r
  end.

(** [o[k] = v] on a property list: an existing key keeps its place. *)
Fixpoint set_prop (A : Type) (k : string) (v : A) (ps : list (string * A))
  : list (string * A) :=
  match ps with
  | [] => [(k, v)]
  | (k', v') :: r =>
      if String.eqb k k' then (k, v) :: r else (k', v') :: set_prop k v r
  end.

(** [{...base, ...more}]. *)
Definition spread (A : Type) (base more : list (string * A)) : list (string * A) :=
  fold_left (fun acc kv => set_prop (fst kv) (snd kv) acc) more base.

(** The decimal name of an index. *)
Definition index_key (i : nat) : string := NilZero.string_of_uint (Nat.to_uint i).

(** The characters of a string under their indices, from index [i] on. *)
Fixpoint index_props (s : string) (i : nat) : list (string * value) :=
  match s with
  | EmptyString => []
  | String c r => (index_key i, VStr (String c EmptyString)) :: index_props r (S i)
  end.

(** The own enumerable properties copied by an object spread: those of an
    object, the characters of a string under their indices, and nothing
    for the other primitives. *)
Definition own_props (v : value) : list (string * value) :=
  match v with
  | VObj _ ps => ps
  | VStr s => index_props s 0
  | _ => []
  end.

(** The elements of an array under their indices, from index [i] on. *)
Fixpoint element_props (l : list value) (i : nat) : list (string * value) :=
  match l with
  | [] => []
  | v :: r => (index_key i, v) :: element_props r (S i)
  end.

(** An array, as an object that holds its elements under their indices;
    [length] is not enumerable and the class never reads it. *)
Definition js_array (l : list value) : value := VObj None (element_props l 0).

(** [v.k] and [v[k]] for the keys the class reads ([migrations],
    [nameFormatter], [customResolver], [wrap], [up], [down], [default],
    [then]): none of them lives on a primitive's prototype. *)
Definition get_prop (v : value) (k : string) : result error value :=
  match v with
  | VUndefined | VNull => Throw TypeError
  | VObj _ ps =>
      match lookup k ps with
      | Some x => Ok x
      | None => Ok VUndefined
      end
  | _ => Ok VUndefined
  end.

(** [v.k !== undefined]: the value carries a member [k]. *)
Definition has_member (v : value) (k : string) : bool :=
  match get_prop v k with
  | Ok VUndefined => false
  | Ok _ => true
  | Throw _ => false
  end.

Definition is_function (v : value) : bool := js_type_eqb (typeof_ v) TFunction.

(** What promise resolution and [await] look for: a callable [then]. *)
Definition thenable (v : value) : bool :=
  match v with
  | VObj _ ps =>
      match lookup "then" ps with
      | Some t => is_function t
      | None => false
      end
  | _ => false
  end.

(* ================================================================== *)
(** ** Node's [path] module (POSIX) *)

Fixpoint segments_from (s cur : string) : list string :=
  match s with
  | EmptyString => [cur]
  | String c r =>
      if Ascii.eqb c "/" then cur :: segments_from r ""
      else segments_from r (cur ++ String c "")
  end.

Definition segments (s : string) : list string := segments_from s "".

Fixpoint last_nonempty (l : list string) (acc : string) : string :=
  match l with
  | [] => acc
  | s :: r => last_nonempty r (if String.eqb s "" then acc else s)
  end.

(** [path.basename(p)]: trailing separators are ignored. *)
Definition basename (p : string) : string := last_nonempty (segments p) "".

Fixpoint normalize (segs acc : list string) : list string :=
  match segs with
  | [] => rev acc
  | s :: r =>
      if String.eqb s "" then normalize r acc
      else if String.eqb s "." then normalize r acc
      else if String.eqb s ".." then normalize r (tl acc)
      else normalize r (s :: acc)
  end.

Definition is_absolute (p : string) : bool :=
  match p with
  | String c _ => Ascii.eqb c "/"
  | EmptyString => false
  end.

(** [path.resolve(p)] for an absolute working directory [wd]. *)
Definition path_resolve (wd p : string) : string :=
  "/" ++ String.concat "/"
           (normalize (segments (if is_absolute p then p else wd ++ "/" ++ p)) []).

(* ================================================================== *)
(** ** Events, environment and the monad of asynchronous methods *)

Inductive method : Type := Up | Down.

Definition method_name (m : method) : string :=
  match m with Up => "up" | Down => "down" end.

Inductive event : Type :=
| EvResolver (path : string)              (* customResolver(this.path) *)
| EvRequire (path : string)               (* require(this.path) *)
| EvWrap (file : string) (m : method)     (* options.migrations.wrap(fun) *)
| EvAction (file : string) (m : method)   (* wrappedFun.apply(migration, args) *)
| EvLog (name : string)                   (* storage.logMigration(name) *)
| EvUnlog (name : string).                (* storage.unlogMigration(name) *)

Record Env (W : Type) : Type := {
  cwd : string;
  invoke : nat -> value -> list value -> W -> result error value * W;
  require_module : string -> W -> result error value * W;
  settle : value -> W -> result error value * W;
  write_log : string -> W -> result error unit * W;
  write_unlog : string -> W -> result error unit * W
}.

Record mstate (W : Type) : Type := {
  world : W;
  trace : list event
}.

Definition M (W A : Type) : Type := mstate W -> result error A * mstate W.

Definition ret (W A : Type) (a : A) : M W A := fun st => (Ok a, st).

Definition throw (W A : Type) (e : error) : M W A := fun st => (Throw e, st).

Arguments ret {W A} a.
Arguments throw {W A} e.

Definition bind (W A B : Type) (c : M W A) (k : A -> M W B) : M W B :=
  fun st =>
    match c st with
    | (Ok a, st') => k a st'
    | (Throw e, st') => (Throw e, st')
    end.

Definition of_result (W A : Type) (r : result error A) : M W A :=
  fun st => (r, st).

Definition emit (W : Type) (e : event) : M W unit :=
  fun st => (Ok tt, {| world := world st; trace := trace st ++ [e] |}).

Definition foreign (W A : Type) (f : W -> result error A * W) : M W A :=
  fun st =>
    let (r, w) := f (world st) in
    (r, {| world := w; trace := trace st |}).

Declare Scope js_scope.
Delimit Scope js_scope with js.
Notation "x <- c ;; k" := (bind c (fun x => k))
  (at level 61, c at next level, right associativity) : js_scope.
Notation "c ;;; k" := (bind c (fun _ => k))
  (at level 61, right associativity) : js_scope.
Local Open Scope js_scope.

(* ================================================================== *)
(** ** The class [Migration] *)

Record Migration : Type := {
  path : string;        (* this.path, already resolved *)
  options : value;      (* this.options, already merged *)
  file : string         (* this.file *)
}.

Section MigrationClass.

Context {W : Type} (E : Env W).

(** A call [f(args)] with receiver [this]. *)
Definition call_value (f this : value) (args : list value) : M W value :=
  match f with
  | VObj (Some DefaultNameFormatter) _ =>
      match args with
      | VStr p :: _ => ret (VStr (basename p))
      | _ => throw TypeError
      end
  | VObj (Some (UserFn id)) _ => foreign (invoke E id this args)
  | _ => throw TypeError
  end.

(** [await v]. *)
Definition await_value (v : value) : M W value :=
  if thenable v then foreign (settle E v) else ret v.

Definition default_nameFormatter : value := VObj (Some DefaultNameFormatter) [].

(** Lines 32-41: the resolved path, the merged options and the result of
    the name formatter. *)
Definition merged_options (opts : value) : M W value :=
  om <- of_result (get_prop opts "migrations") ;;
  ret (VObj None
         (set_prop "migrations"
            (VObj None (spread [("nameFormatter", default_nameFormatter)]
                          (own_props om)))
            (own_props opts))).

(** Lines 32-41: [this.options] and the value the name formatter gives
    for [this.path]. *)
Definition formatted (p : string) (opts : value) : M W (value * value) :=
  o <- merged_options opts ;;
  migs <- of_result (get_prop o "migrations") ;;
  nf <- of_result (get_prop migs "nameFormatter") ;;
  r <- call_value nf migs [VStr (path_resolve (cwd E) p)] ;;
  ret (o, r).

Definition formatter_message (p : string) (r : value) : string :=
  "Unexpected migration formatter result for '" ++ p
    ++ "': expected string, got " ++ type_name (typeof_ r).

(** [new Migration(path, options)]. *)
Definition new_Migration (p : string) (opts : value) : M W Migration :=
  x <- formatted p opts ;;
  match snd x with
  | VStr s =>
      ret {| path := path_resolve (cwd E) p; options := fst x; file := s |}
  | r => throw (JsError (formatter_message (path_resolve (cwd E) p) r))
  end.

Definition resolution_message (m : Migration) : string :=
  "Failed to obtain migration definition module for '" ++ path m ++ "'".

(** The default-export step of line 65, on a truthy [result]. *)
Definition unwrap_default (r : value) : M W value :=
  u <- of_result (get_prop r "up") ;;
  if truthy u then ret r else
  d <- of_result (get_prop r "down") ;;
  if truthy d then ret r else
  df <- of_result (get_prop r "default") ;;
  if truthy df then ret df else ret r.

(** Lines 55-59: the custom resolver if there is one, [require]
    otherwise. *)
Definition load_definition (m : Migration) : M W value :=
  migs <- of_result (get_prop (options m) "migrations") ;;
  cr <- of_result (get_prop migs "customResolver") ;;
  if is_function cr
  then emit (EvResolver (path m)) ;;; call_value cr migs [VStr (path m)]
  else emit (EvRequire (path m)) ;;; foreign (require_module E (path m)).

(** [migration()]: the value handed to [return]. *)
Definition Migration_migration (m : Migration) : M W value :=
  r <- load_definition m ;;
  if truthy r then unwrap_default r
  else throw (JsError (resolution_message m)).

(** [await this.migration()]: an [async] method that returns a thenable
    resolves to what the thenable settles to. *)
Definition obtain (m : Migration) : M W value :=
  r <- Migration_migration m ;;
  await_value r.

Definition method_message (meth : method) : string :=
  "Could not find migration method: " ++ method_name meth.

Definition contract_message (m : Migration) : string :=
  "Migration " ++ file m ++ " (or wrapper) didn't return a promise".

(** Whether the member [apply] of [f] can be called: an own [apply] hides
    [Function.prototype.apply], which only functions inherit. *)
Definition applicable (f : value) : bool :=
  match f with
  | VObj c ps =>
      match lookup "apply" ps with
      | Some ap => is_function ap
      | None => match c with Some _ => true | None => false end
      end
  | _ => false
  end.

(** [wrappedFun.apply(migration, args)]: the member [apply] of what the
    wrapper returned is read and called on it.  For a function without an
    [apply] of its own this is [Function.prototype.apply], which calls the
    function on [migration] with [args]; an own [apply] is called on
    [wrappedFun] with [migration] and the array [args]. *)
Definition fn_apply (m : Migration) (meth : method)
    (f this : value) (args : list value) : M W value :=
  match f with
  | VObj c ps =>
      match lookup "apply" ps with
      | Some ap =>
          if is_function ap
          then emit (EvAction (file m) meth) ;;; call_value ap f [this; js_array args]
          else throw TypeError
      | None =>
          match c with
          | Some _ => emit (EvAction (file m) meth) ;;; call_value f this args
          | None => throw TypeError
          end
      end
  | _ => throw TypeError
  end.

(** Lines 105-110 of [_exec], once the definition is at hand: what the
    wrapped action returns. *)
Definition call_wrapped (m : Migration) (meth : method) (args : list value)
    (migration : value) : M W value :=
  fun_ <- of_result (get_prop migration (method_name meth)) ;;
  if negb (truthy fun_) then throw (JsError (method_message meth)) else
  migs <- of_result (get_prop (options m) "migrations") ;;
  wrap <- of_result (get_prop migs "wrap") ;;
  emit (EvWrap (file m) meth) ;;;
  wrappedFun <- call_value wrap migs [fun_] ;;
  fn_apply m meth wrappedFun migration args.

(** The test of line 112: [!result || typeof result.then !== 'function']. *)
Definition not_a_promise (r : value) : M W bool :=
  if negb (truthy r) then ret true else
  t <- of_result (get_prop r "then") ;;
  ret (negb (is_function t)).

(** Lines 105-116. *)
Definition exec_on (m : Migration) (meth : method) (args : list value)
    (migration : value) : M W unit :=
  r <- call_wrapped m meth args migration ;;
  bad <- not_a_promise r ;;
  if bad then throw (JsError (contract_message m))
  else await_value r ;;; ret tt.

(** [_exec(method, args)]. *)
Definition Migration_exec (m : Migration) (meth : method) (args : list value)
  : M W unit :=
  migration <- obtain m ;;
  exec_on m meth args migration.

(** [up(...args)] and [down(...args)]. *)
Definition Migration_up (m : Migration) (args : list value) : M W unit :=
  Migration_exec m Up args.

Definition Migration_down (m : Migration) (args : list value) : M W unit :=
  Migration_exec m Down args.

End MigrationClass.

(* ================================================================== *)
(** ** The engine around the units *)

(** Modelled from the spec: the Storage Adapter of section 4.3, whose
    implementations (src/storages/) are not among the sources.  The
    Execution Record is the list of recorded names, oldest first.  A
    write is a call to the adapter, [write_log] or [write_unlog] of the
    environment, which may fail; when it succeeds the record changes as a
    whole, [logMigration] appending the name and [unlogMigration] removing
    it, and when it fails the record is left as it was. *)
Definition logMigration (name : string) (rec : list string) : list string :=
  rec ++ [name].

(** Modelled from the spec: [unlogMigration] of section 4.3 (storage
    implementations are not among the sources): the name leaves the record,
    every other name stays where it is. *)
Definition unlogMigration (name : string) (rec : list string) : list string :=
  filter (fun n => negb (String.eqb n name)) rec.

(** Modelled from the spec: membership in the Execution Record, "the sole
    identity used for idempotence matching" of section 3. *)
Definition recorded (name : string) (rec : list string) : bool :=
  existsb (String.eqb name) rec.

(** Modelled from the spec: the state of a run, the world of the units
    together with the Execution Record that the engine alone writes. *)
Record ustate (W : Type) : Type := {
  mig : mstate W;                   (* the world and the trace *)
  executed_names : list string      (* the Execution Record *)
}.

(** Modelled from the spec: [ExecutionError] and [StorageError] of section
    7 (src/umzug.ts is not among the sources): the unit whose action or
    whose record write failed, the units already committed by this call,
    and the cause. *)
Inductive run_error : Type :=
| ExecutionError (name : string) (committed : list string) (cause : error)
| StorageError (name : string) (committed : list string) (cause : error).

Definition names (ms : list Migration) : list string := map file ms.

(** Modelled from the spec: [executed()] and [pending()] of section 4.4
    (src/umzug.ts is not among the sources): the units of the sequence
    that are, respectively are not, in the Execution Record, in sequence
    order. *)
Definition Umzug_executed (S : list Migration) (rec : list string) : list Migration :=
  filter (fun m => recorded (file m) rec) S.

(** Modelled from the spec: [pending()] of section 4.4, as above. *)
Definition Umzug_pending (S : list Migration) (rec : list string) : list Migration :=
  filter (fun m => negb (recorded (file m) rec)) S.

(** Modelled from the spec: the unit of the sequence that bears a given
    name (src/umzug.ts is not among the sources). *)
Definition find_unit (S : list Migration) (name : string) : option Migration :=
  find (fun m => String.eqb (file m) name) S.

(** Modelled from the spec: "the single most-recently-executed unit" of
    section 4.4 (src/umzug.ts is not among the sources): the unit of the
    sequence whose name was recorded last; the argument is the Execution
    Record, newest first. *)
Fixpoint most_recent (S : list Migration) (newest_first : list string)
  : option Migration :=
  match newest_first with
  | [] => None
  | n :: r =>
      match find_unit S n with
      | Some m => Some m
      | None => most_recent S r
      end
  end.

(** Modelled from the spec: the default selection of [down] in section
    4.4 (src/umzug.ts is not among the sources). *)
Definition default_down_selection (S : list Migration) (rec : list string)
  : list Migration :=
  match most_recent S (rev rec) with
  | Some m => [m]
  | None => []
  end.

Section Engine.

Context {W : Type} (E : Env W).

(** Modelled from the spec: the execution loop of [up] in section 4.4
    (src/umzug.ts is not among the sources): each selected unit in turn
    runs [Migration.up] with no argument; on success its name is written
    to the record, and the loop stops, naming the unit and what was
    committed, as soon as an action or a record write fails. *)
Fixpoint run_up (todo done : list Migration) (u : ustate W)
  : result run_error (list Migration) * ustate W :=
  match todo with
  | [] => (Ok done, u)
  | m :: rest =>
      match Migration_up E m [] (mig u) with
      | (Ok _, st) =>
          match write_log E (file m) (world st) with
          | (Ok _, w) =>
              run_up rest (done ++ [m])
                {| mig := {| world := w; trace := trace st ++ [EvLog (file m)] |};
                   executed_names := logMigration (file m) (executed_names u) |}
          | (Throw e, w) =>
              (Throw (StorageError (file m) (names done) e),
               {| mig := {| world := w; trace := trace st |};
                  executed_names := executed_names u |})
          end
      | (Throw e, st) =>
          (Throw (ExecutionError (file m) (names done) e),
           {| mig := st; executed_names := executed_names u |})
      end
  end.

(** Modelled from the spec: the execution loop of [down] in section 4.4
    (src/umzug.ts is not among the sources), the mirror image of
    [run_up] with [Migration.down] and [unlogMigration]. *)
Fixpoint run_down (todo done : list Migration) (u : ustate W)
  : result run_error (list Migration) * ustate W :=
  match todo with
  | [] => (Ok done, u)
  | m :: rest =>
      match Migration_down E m [] (mig u) with
      | (Ok _, st) =>
          match write_unlog E (file m) (world st) with
          | (Ok _, w) =>
              run_down rest (done ++ [m])
                {| mig := {| world := w; trace := trace st ++ [EvUnlog (file m)] |};
                   executed_names := unlogMigration (file m) (executed_names u) |}
          | (Throw e, w) =>
              (Throw (StorageError (file m) (names done) e),
               {| mig := {| world := w; trace := trace st |};
                  executed_names := executed_names u |})
          end
      | (Throw e, st) =>
          (Throw (ExecutionError (file m) (names done) e),
           {| mig := st; executed_names := executed_names u |})
      end
  end.

(** Modelled from the spec: [up()] with no argument selects all pending
    units, evaluated against the record at the moment of the call. *)
Definition Umzug_up (S : list Migration) (u : ustate W)
  : result run_error (list Migration) * ustate W :=
  run_up (Umzug_pending S (executed_names u)) [] u.

(** Modelled from the spec: [down()] with no argument selects the single
    most recently executed unit. *)
Definition Umzug_down (S : list Migration) (u : ustate W)
  : result run_error (list Migration) * ustate W :=
  run_down (default_down_selection S (executed_names u)) [] u.

End Engine.

(* ================================================================== *)
(** ** An invocation, told by what the foreign code does *)

Section Carrying.

Context {W : Type} (E : Env W).

(** The resolver of the unit, or [require] when there is none, answers [r]. *)
Definition loads (m : Migration) (w : W) (r : value) (w' : W) : Prop :=
  exists migs cr,
    get_prop (options m) "migrations" = Ok migs
    /\ get_prop migs "customResolver" = Ok cr
    /\ ((exists id ps, cr = VObj (Some (UserFn id)) ps
                       /\ invoke E id migs [VStr (path m)] w = (Ok r, w'))
        \/ (is_function cr = false /\ require_module E (path m) w = (Ok r, w'))).

(** The definition that line 65 makes of a truthy answer. *)
Definition unwrapped (r : value) : value :=
  match get_prop r "up", get_prop r "down", get_prop r "default" with
  | Ok u, Ok d, Ok df =>
      if negb (truthy u) && negb (truthy d) && truthy df then df else r
  | _, _, _ => r
  end.

(** Awaiting [v] gives [d]: [v] itself, or what the promise [v] is
    fulfilled with. *)
Definition settles (v : value) (w : W) (d : value) (w' : W) : Prop :=
  (thenable v = false /\ d = v /\ w' = w)
  \/ (thenable v = true /\ settle E v w = (Ok d, w')).

(** The function [wf], called through its member [apply] on [this] with
    [args], ends as [out] says. *)
Definition applies (wf this : value) (args : list value) (w : W)
    (out : result error value) (w' : W) : Prop :=
  exists c ps,
    wf = VObj c ps
    /\ ((lookup "apply" ps = None
         /\ exists id, c = Some (UserFn id) /\ invoke E id this args w = (out, w'))
        \/ (exists id xps,
              lookup "apply" ps = Some (VObj (Some (UserFn id)) xps)
              /\ invoke E id wf [this; js_array args] w = (out, w'))).

(** The steps up to the call of the action: the definition [d] is obtained,
    it has the method, and the wrapper gives the function [wf]. *)
Definition prepares (m : Migration) (meth : method) (w : W)
    (d wf : value) (w' : W) : Prop :=
  exists r0 w1 w2 f migs wid wps,
    loads m w r0 w1
    /\ truthy r0 = true
    /\ settles (unwrapped r0) w1 d w2
    /\ get_prop d (method_name meth) = Ok f
    /\ truthy f = true
    /\ get_prop (options m) "migrations" = Ok migs
    /\ get_prop migs "wrap" = Ok (VObj (Some (UserFn wid)) wps)
    /\ invoke E wid migs [f] w2 = (Ok wf, w').

(** The unit carries out [meth]: the action is called on the definition
    with [args], it returns a promise, and the promise is fulfilled. *)
Definition performs (m : Migration) (meth : method) (args : list value)
    (w w' : W) : Prop :=
  exists d wf w3 r w4 v,
    prepares m meth w d wf w3
    /\ applies wf d args w3 (Ok r) w4
    /\ thenable r = true
    /\ settle E r w4 = (Ok v, w').

(** The action of the unit fails with [e]: called on the definition with
    [args], it throws [e], or it returns a promise that is rejected with
    [e]. *)
Definition action_throws (m : Migration) (meth : method) (args : list value)
    (w : W) (e : error) (w' : W) : Prop :=
  exists d wf w3,
    prepares m meth w d wf w3
    /\ (applies wf d args w3 (Throw e) w'
        \/ exists r w4,
             applies wf d args w3 (Ok r) w4
             /\ thenable r = true
             /\ settle E r w4 = (Throw e, w')).

(** The units of a list carry out [up] one after the other, each followed
    by the write of its name to the record. *)
Inductive up_chain : list Migration -> W -> W -> Prop :=
| up_chain_nil (w : W) : up_chain [] w w
| up_chain_cons (m : Migration) (ms : list Migration) (w w1 w2 w3 : W) :
    performs m Up [] w w1 ->
    write_log E (file m) w1 = (Ok tt, w2) ->
    up_chain ms w2 w3 ->
    up_chain (m :: ms) w w3.

End Carrying.

(** The invocations of actions that a trace holds, oldest first. *)
Definition action_of (e : event) : option (string * method) :=
  match e with
  | EvAction f m => Some (f, m)
  | _ => None
  end.

Fixpoint actions (t : list event) : list (string * method) :=
  match t with
  | [] => []
  | e :: r =>
      match action_of e with
      | Some a => a :: actions r
      | None => actions r
      end
  end.

(** A computation is quiet when it invokes no action. *)
Definition quiet (W A : Type) (c : M W A) : Prop :=
  forall st r st', c st = (r, st') -> actions (trace st') = actions (trace st).

(** A computation invokes the action [a] once when it succeeds, and at
    most once when it throws. *)
Definition once (W : Type) (a : string * method) (A : Type) (c : M W A) : Prop :=
  forall st r st', c st = (r, st') ->
    match r with
    | Ok _ => actions (trace st') = actions (trace st) ++ [a]
    | Throw _ => actions (trace st') = actions (trace st)
                 \/ actions (trace st') = actions (trace st) ++ [a]
    end.

Definition up_action (m : Migration) : string * method := (file m, Up).

(* ================================================================== *)
(** ** Resolution of a glob source *)

(** Modelled from the spec: the file-enumeration collaborator of section
    4.2 (glob matching is not among the sources).  A pattern is made of
    literal characters and of [*], which stands for any run of characters
    other than the separator. *)
Fixpoint glob_match (pat : string) : string -> bool :=
  match pat with
  | EmptyString => fun s => String.eqb s ""
  | String c pat' =>
      if Ascii.eqb c "*" then
        fix star (s : string) : bool :=
          glob_match pat' s ||
          match s with
          | String d s' => negb (Ascii.eqb d "/") && star s'
          | EmptyString => false
          end
      else
        fun s =>
          match s with
          | String d s' => Ascii.eqb c d && glob_match pat' s'
          | EmptyString => false
          end
  end.

(** Modelled from the spec: helpers of [glob_name] below. *)
Fixpoint has_dot (s : string) : bool :=
  match s with
  | EmptyString => false
  | String c r => Ascii.eqb c "." || has_dot r
  end.

Fixpoint cut_extension (s : string) : string :=
  match s with
  | EmptyString => ""
  | String c r =>
      if Ascii.eqb c "." && negb (has_dot r) then ""
      else String c (cut_extension r)
  end.

(** Modelled from the spec: the name given to a globbed file, "extension
    stripped" in the words of section 8: the base name up to its last dot
    (a leading dot is kept). *)
Definition glob_name (p : string) : string :=
  match basename p with
  | EmptyString => ""
  | String c r => String c (cut_extension r)
  end.

(** Modelled from the spec: what the glob form yields for one file, the
    [name] and [path] of the parameters of section 4.2 (src/umzug.ts is
    not among the sources). *)
Record GlobbedMigration : Type := {
  g_name : string;
  g_path : string
}.

(** Modelled from the spec: the glob form of the Resolver in section 4.2
    (src/umzug.ts is not among the sources): the enumerated files that
    match the pattern and none of the ignore patterns, in enumeration
    order, each named from its path. *)
Definition resolve_glob (pattern : string) (ignore files : list string)
  : list GlobbedMigration :=
  map (fun p => {| g_name := glob_name p; g_path := p |})
      (filter (fun p => glob_match pattern p
                        && negb (existsb (fun i => glob_match i p) ignore))
              files).

(* ================================================================== *)
(** ** A concrete world, for the examples *)

Module Sample.

(** The world counts the foreign calls made so far. *)
Definition promise : value := VObj None [("then", VObj (Some (UserFn 99)) [])].

Definition good_definition : value :=
  VObj None [("up", VObj (Some (UserFn 10)) []); ("down", VObj (Some (UserFn 11)) [])].

Definition up_only : value := VObj None [("up", VObj (Some (UserFn 10)) [])].

Definition sloppy_definition : value := VObj None [("up", VObj (Some (UserFn 12)) [])].

Definition failing_definition : value := VObj None [("up", VObj (Some (UserFn 13)) [])].

Definition null_up_definition : value :=
  VObj None [("up", VNull); ("default", good_definition)].

Definition nested_default : value :=
  VObj None [("default", VObj None [("default", good_definition)])].

Definition boom : error := Thrown (VStr "boom").

Definition sample_invoke (id : nat) (this : value) (args : list value) (w : nat)
  : result error value * nat :=
  match id with
  | 0 =>                                   (* customResolver *)
      match args with
      | VStr p :: _ =>
          if String.eqb (basename p) "bad" then (Ok failing_definition, S w)
          else if String.eqb (basename p) "sloppy" then (Ok sloppy_definition, S w)
          else if String.eqb (basename p) "none" then (Ok VUndefined, S w)
          else if String.eqb (basename p) "uponly" then (Ok up_only, S w)
          else if String.eqb (basename p) "nullup" then (Ok null_up_definition, S w)
          else if String.eqb (basename p) "nested" then (Ok nested_default, S w)
          else (Ok good_definition, S w)
      | _ => (Ok VUndefined, S w)
      end
  | 1 => (Ok (hd VUndefined args), S w)    (* wrap: fn => fn *)
  | 2 => (Ok (VNum 7), S w)                (* a formatter that answers a number *)
  | 10 | 11 => (Ok promise, S w)           (* well-behaved actions *)
  | 12 => (Ok VUndefined, S w)             (* an action that returns nothing *)
  | 13 => (Throw boom, S w)                (* an action that throws *)
  | _ => (Ok VUndefined, S w)
  end.

Definition env : Env nat := {|
  cwd := "/w";
  invoke := sample_invoke;
  require_module := fun _ w => (Ok VUndefined, S w);
  settle := fun _ w => (Ok VUndefined, S w);
  write_log := fun _ w => (Ok tt, w);
  write_unlog := fun _ w => (Ok tt, w)
|}.

Definition user_options : value :=
  VObj None [("migrations",
              VObj None [("wrap", VObj (Some (UserFn 1)) []);
                         ("customResolver", VObj (Some (UserFn 0)) [])])].

Definition merged : value :=
  VObj None [("migrations",
              VObj None [("nameFormatter", default_nameFormatter);
                         ("wrap", VObj (Some (UserFn 1)) []);
                         ("customResolver", VObj (Some (UserFn 0)) [])])].

Definition unit_ (name : string) : Migration :=
  {| path := "/w/" ++ name; options := merged; file := name |}.

(** A unit without custom resolver: the definition is [require]d. *)
Definition required_unit : Migration :=
  {| path := "/w/plain";
     options := VObj None [("migrations",
                  VObj None [("nameFormatter", default_nameFormatter);
                             ("wrap", VObj (Some (UserFn 1)) [])])];
     file := "plain" |}.

(** Options that leave the name formatter alone, and options that
    replace it by one answering a number. *)
Definition bare_options : value := VObj None [("migrations", VObj None [])].

Definition numeric_formatter_options : value :=
  VObj None [("migrations",
              VObj None [("nameFormatter", VObj (Some (UserFn 2)) [])])].

Definition st0 : mstate nat := {| world := 0; trace := [] |}.

Definition u0 : ustate nat := {| mig := st0; executed_names := [] |}.

Definition two_units : list Migration := [unit_ "a"; unit_ "b"].

(** The state that [up()] leaves behind on [two_units]. *)
Definition after_up : ustate nat :=
  Eval vm_compute in snd (Umzug_up env two_units u0).

Definition glob_files : list string :=
  ["migration1.sql"; "migration2.sql"; "should-be-ignored.txt"; "migration3.sql"].

End Sample.

(* ================================================================== *)
(** ** [testFileName] and further observations *)

(** What [String.prototype.startsWith] needs beyond the values above: the
    printing of a number, and the conversion of an object, which runs the
    object's own [Symbol.match], [toString] and [valueOf] and may throw. *)
Record Coercion (W : Type) : Type := {
  number_to_string : Z -> string;
  object_to_string : value -> W -> result error string * W
}.

Section TestFileName.

Context {W : Type} (E : Env W) (C : Coercion W).

(** The search string that [startsWith] derives from its argument. *)
Definition to_search_string (v : value) : M W string :=
  match v with
  | VStr s => ret s
  | VUndefined => ret "undefined"
  | VNull => ret "null"
  | VBool true => ret "true"
  | VBool false => ret "false"
  | VNum n => ret (number_to_string C n)
  | VNaN => ret "NaN"
  | VObj _ _ => foreign (object_to_string C v)
  end.

(** [testFileName(needle)], line 91. *)
Definition Migration_testFileName (m : Migration) (needle : string) : M W bool :=
  migs <- of_result (get_prop (options m) "migrations") ;;
  nf <- of_result (get_prop migs "nameFormatter") ;;
  r <- call_value E nf migs [VStr needle] ;;
  s <- to_search_string r ;;
  ret (String.prefix s (file m)).

End TestFileName.

(** A computation is still when it leaves the trace as it found it: it
    neither loads a definition nor calls the wrapper or an action. *)
Definition still (W A : Type) (c : M W A) : Prop :=
  forall st r st', c st = (r, st') -> trace st' = trace st.

(** The one event that obtaining the definition of [m] leaves, given the
    value [cr] of [options.migrations.customResolver]. *)
Definition load_event (m : Migration) (cr : value) : event :=
  if is_function cr then EvResolver (path m) else EvRequire (path m).

Fixpoint no_separator (s : string) : bool :=
  match s with
  | EmptyString => true
  | String c r => negb (Ascii.eqb c "/") && no_separator r
  end.

(** A second concrete world: the custom resolver is asynchronous, the
    action's promise is rejected, and one formatter renames the unit. *)
Module Async.

Definition pending_definition : value :=
  VObj None [("then", VObj (Some (UserFn 99)) []); ("tag", VStr "definition")].

Definition rejecting_promise : value :=
  VObj None [("then", VObj (Some (UserFn 99)) []); ("tag", VStr "rejects")].

Definition definition : value := VObj None [("up", VObj (Some (UserFn 10)) [])].

Definition rejection : error := Thrown (VStr "rejected").

Definition async_invoke (id : nat) (this : value) (args : list value) (w : nat)
  : result error value * nat :=
  match id with
  | 0 => (Ok pending_definition, S w)      (* customResolver: async *)
  | 1 => (Ok (hd VUndefined args), S w)    (* wrap: fn => fn *)
  | 3 => (Ok (VStr "renamed"), S w)        (* nameFormatter *)
  | 10 => (Ok rejecting_promise, S w)      (* up *)
  | _ => (Ok VUndefined, S w)
  end.

Definition async_settle (v : value) (w : nat) : result error value * nat :=
  match get_prop v "tag" with
  | Ok (VStr t) =>
      if String.eqb t "definition" then (Ok definition, S w)
      else (Throw rejection, S w)
  | _ => (Throw rejection, S w)
  end.

Definition env : Env nat := {|
  cwd := "/w";
  invoke := async_invoke;
  require_module := fun _ w => (Ok VUndefined, S w);
  settle := async_settle;
  write_log := fun _ w => (Ok tt, w);
  write_unlog := fun _ w => (Ok tt, w)
|}.

Definition merged : value :=
  VObj None [("migrations",
              VObj None [("nameFormatter", default_nameFormatter);
                         ("wrap", VObj (Some (UserFn 1)) []);
                         ("customResolver", VObj (Some (UserFn 0)) [])])].

Definition unit_ (name : string) : Migration :=
  {| path := "/w/" ++ name; options := merged; file := name |}.

Definition renaming_options : value :=
  VObj None [("verbose", VBool true);
             ("migrations",
              VObj None [("nameFormatter", VObj (Some (UserFn 3)) []);
                         ("wrap", VObj (Some (UserFn 1)) [])])].

(** Units of the first sample world whose options lack a usable wrapper. *)
Definition unwrapped_unit : Migration :=
  {| path := "/w/a";
     options := VObj None [("migrations",
                  VObj None [("nameFormatter", default_nameFormatter);
                             ("customResolver", VObj (Some (UserFn 0)) [])])];
     file := "a" |}.

Definition miswrapped_unit : Migration :=
  {| path := "/w/a";
     options := VObj None [("migrations",
                  VObj None [("nameFormatter", default_nameFormatter);
                             ("wrap", VObj (Some (UserFn 2)) []);
                             ("customResolver", VObj (Some (UserFn 0)) [])])];
     file := "a" |}.

(** The unit that the renaming options give for the path [a]. *)
Definition renamed_unit : Migration :=
  {| path := "/w/a"; options := renaming_options; file := "renamed" |}.

Definition coercion : Coercion nat := {|
  number_to_string := fun n => NilZero.string_of_int (Z.to_int n);
  object_to_string := fun _ w => (Ok "[object Object]", S w)
|}.

Definition st0 : mstate nat := {| world := 0; trace := [] |}.

End Async.

(* ================================================================== *)
(** ** Facts about the monad and the trace *)

Lemma actions_app (t1 t2 : list event) :
  actions (t1 ++ t2) = actions t1 ++ actions t2.
Proof.
  induction t1 as [|e t1 IH]; simpl; [reflexivity|].
  destruct (action_of e); simpl; now rewrite IH.
Qed.

Section MonadFacts.

Context {W : Type}.

Lemma bind_ok A B (c : M W A) (k : A -> M W B) st a st1 :
  c st = (Ok a, st1) -> bind c k st = k a st1.
Proof. unfold bind; intros ->; reflexivity. Qed.

Lemma bind_throw A B (c : M W A) (k : A -> M W B) st e st1 :
  c st = (Throw e, st1) -> bind c k st = (Throw e, st1).
Proof. unfold bind; intros ->; reflexivity. Qed.

Lemma bind_inv A B (c : M W A) (k : A -> M W B) st r st' :
  bind c k st = (r, st') ->
  (exists a st1, c st = (Ok a, st1) /\ k a st1 = (r, st')) \/
  (exists e, c st = (Throw e, st') /\ r = Throw e).
Proof.
  unfold bind. destruct (c st) as [[a|e] st1]; intros H.
  - left; eauto.
  - right; exists e; inversion H; subst; auto.
Qed.

Lemma quiet_ret A (a : A) : quiet (ret (W:=W) a).
Proof. intros st r st' H; inversion H; reflexivity. Qed.

Lemma quiet_throw A e : quiet (throw (W:=W) (A:=A) e).
Proof. intros st r st' H; inversion H; reflexivity. Qed.

Lemma quiet_of_result A (x : result error A) : quiet (of_result (W:=W) x).
Proof. intros st r st' H; inversion H; reflexivity. Qed.

Lemma quiet_foreign A (f : W -> result error A * W) : quiet (foreign f).
Proof.
  intros st r st'. unfold foreign. destruct (f (world st)); intros H.
  inversion H; reflexivity.
Qed.

Lemma quiet_emit e : action_of e = None -> quiet (emit (W:=W) e).
Proof.
  intros He st r st' H. inversion H; subst; simpl.
  rewrite actions_app; simpl. rewrite He. now rewrite app_nil_r.
Qed.

Lemma quiet_bind A B (c : M W A) (k : A -> M W B) :
  quiet c -> (forall a, quiet (k a)) -> quiet (bind c k).
Proof.
  intros Hc Hk st r st' H.
  destruct (bind_inv _ _ _ H) as [(a & st1 & H1 & H2)|(e & H1 & _)].
  - rewrite (Hk _ _ _ _ H2). eapply Hc; eauto.
  - eapply Hc; eauto.
Qed.

Lemma once_quiet_then A B a (c : M W A) (k : A -> M W B) :
  quiet c -> (forall x, once a (k x)) -> once a (bind c k).
Proof.
  intros Hc Hk st r st' H.
  destruct (bind_inv _ _ _ H) as [(x & st1 & H1 & H2)|(e & H1 & ->)].
  - specialize (Hk _ _ _ _ H2). rewrite <- (Hc _ _ _ H1). exact Hk.
  - left. eapply Hc; eauto.
Qed.

Lemma once_then_quiet A B a (c : M W A) (k : A -> M W B) :
  once a c -> (forall x, quiet (k x)) -> once a (bind c k).
Proof.
  intros Hc Hk st r st' H.
  destruct (bind_inv _ _ _ H) as [(x & st1 & H1 & H2)|(e & H1 & ->)].
  - specialize (Hc _ _ _ H1); simpl in Hc.
    rewrite (Hk _ _ _ _ H2), Hc. destruct r; auto.
  - exact (Hc _ _ _ H1).
Qed.

Lemma once_throw A a e : once a (throw (W:=W) (A:=A) e).
Proof. intros st r st' H; inversion H; subst; now left. Qed.

Lemma once_emit f m : once (f, m) (emit (W:=W) (EvAction f m)).
Proof.
  intros st r st' H. inversion H; subst; simpl.
  rewrite actions_app; reflexivity.
Qed.

End MonadFacts.

Arguments bind_ok {W A B c} k {st a st1} _.
Arguments bind_throw {W A B c} k {st e st1} _.
Arguments bind_inv {W A B c k st r st'} _.

Create HintDb quiet.

#[local] Hint Resolve quiet_ret quiet_throw quiet_of_result quiet_foreign : quiet.

Ltac quiet_step :=
  match goal with
  | |- quiet (bind _ _) => apply quiet_bind; [|intro]
  | |- quiet (emit _) => apply quiet_emit; reflexivity
  | |- quiet (if ?b then _ else _) => destruct b
  | |- quiet (match ?x with _ => _ end) => destruct x
  | |- quiet _ => solve [auto with quiet]
  end.

Ltac quiet_all := repeat quiet_step.

(* ================================================================== *)
(** ** Facts about the class [Migration] *)

Section MigrationFacts.

Context {W : Type} (E : Env W).

Lemma quiet_call_value f this args : quiet (call_value E f this args).
Proof. unfold call_value. quiet_all. Qed.

Lemma quiet_await_value v : quiet (await_value E v).
Proof. unfold await_value. quiet_all. Qed.

Hint Resolve quiet_call_value quiet_await_value : quiet.

Lemma quiet_load_definition m : quiet (load_definition E m).
Proof. unfold load_definition. quiet_all. Qed.

Lemma quiet_unwrap_default r : quiet (unwrap_default (W:=W) r).
Proof. unfold unwrap_default. quiet_all. Qed.

Hint Resolve quiet_load_definition quiet_unwrap_default : quiet.

Lemma quiet_migration m : quiet (Migration_migration E m).
Proof. unfold Migration_migration. quiet_all. Qed.

Hint Resolve quiet_migration : quiet.

Lemma quiet_obtain m : quiet (obtain E m).
Proof. unfold obtain. quiet_all. Qed.

Lemma quiet_not_a_promise r : quiet (not_a_promise (W:=W) r).
Proof. unfold not_a_promise. quiet_all. Qed.

Lemma once_fn_apply m meth f this args :
  once (file m, meth) (fn_apply E m meth f this args).
Proof.
  unfold fn_apply. destruct f as [| | | | | |c ps]; try apply once_throw.
  destruct (lookup "apply" ps) as [ap|].
  - destruct (is_function ap); [|apply once_throw].
    apply once_then_quiet; [apply once_emit|intro; apply quiet_call_value].
  - destruct c; [|apply once_throw].
    apply once_then_quiet; [apply once_emit|intro; apply quiet_call_value].
Qed.

Lemma once_call_wrapped m meth args d :
  once (file m, meth) (call_wrapped E m meth args d).
Proof.
  unfold call_wrapped.
  apply once_quiet_then; [quiet_all|intro fun_].
  destruct (negb (truthy fun_)); [apply once_throw|].
  apply once_quiet_then; [quiet_all|intro migs].
  apply once_quiet_then; [quiet_all|intro wrap].
  apply once_quiet_then; [quiet_all|intros _].
  apply once_quiet_then; [quiet_all|intro wrapped].
  apply once_fn_apply.
Qed.

(** Every run of [_exec] invokes the unit's action at most once, and
    exactly once when it succeeds. *)
Lemma once_exec m meth args :
  once (file m, meth) (Migration_exec E m meth args).
Proof.
  unfold Migration_exec.
  apply once_quiet_then; [apply quiet_obtain|intro d].
  unfold exec_on.
  apply once_then_quiet; [apply once_call_wrapped|intro r].
  apply quiet_bind; [apply quiet_not_a_promise|intro bad].
  destruct bad; quiet_all.
Qed.

End MigrationFacts.

(* ================================================================== *)
(** ** Errors raised by a unit *)

Section UnitErrors.

Context {W : Type} (E : Env W).

Lemma truthy_get_prop r k : truthy r = true -> exists v, get_prop r k = Ok v.
Proof.
  destruct r; simpl; try discriminate; eauto.
  intros _. destruct (lookup k props); eauto.
Qed.

(** C7.  When the resolver of a unit, be it the custom resolver or the
    default import, returns a falsy value, [migration()] and with it
    every invocation of the unit throws the error whose message names
    the unit's path; nothing further is called. *)
Theorem resolver_returns_nothing (m : Migration) (st st1 : mstate W) (r : value) :
  load_definition E m st = (Ok r, st1) ->
  truthy r = false ->
  Migration_migration E m st =
    (Throw (JsError ("Failed to obtain migration definition module for '"
                     ++ path m ++ "'")), st1)
  /\ forall meth args,
       Migration_exec E m meth args st =
         (Throw (JsError ("Failed to obtain migration definition module for '"
                          ++ path m ++ "'")), st1).
Proof.
  intros Hload Hfalsy.
  assert (Hm : Migration_migration E m st =
               (Throw (JsError (resolution_message m)), st1)).
  { unfold Migration_migration. rewrite (bind_ok _ Hload), Hfalsy. reflexivity. }
  split; [exact Hm|].
  intros meth args. unfold Migration_exec, obtain.
  apply bind_throw. apply bind_throw. exact Hm.
Qed.

(** C5.  When the definition obtained for a unit has no member under the
    requested method's name, the invocation throws the error whose
    message names that method, right after the definition was obtained:
    neither the wrapper nor any action is invoked. *)
Theorem missing_method (m : Migration) (meth : method) (args : list value)
    (st st1 : mstate W) (d : value) :
  obtain E m st = (Ok d, st1) ->
  get_prop d (method_name meth) = Ok VUndefined ->
  Migration_exec E m meth args st =
    (Throw (JsError ("Could not find migration method: " ++ method_name meth)), st1)
  /\ actions (trace st1) = actions (trace st).
Proof.
  intros Hd Hget. split.
  - unfold Migration_exec. rewrite (bind_ok _ Hd).
    unfold exec_on, call_wrapped.
    apply bind_throw.
    unfold bind at 1, of_result. rewrite Hget. reflexivity.
  - exact (quiet_obtain E m st Hd).
Qed.

(** The same holds for any falsy member, which is what line 106 tests. *)
Lemma falsy_method (m : Migration) (meth : method) (args : list value)
    (st st1 : mstate W) (d f : value) :
  obtain E m st = (Ok d, st1) ->
  get_prop d (method_name meth) = Ok f ->
  truthy f = false ->
  Migration_exec E m meth args st = (Throw (JsError (method_message meth)), st1).
Proof.
  intros Hd Hget Hf.
  unfold Migration_exec. rewrite (bind_ok _ Hd).
  unfold exec_on, call_wrapped.
  apply bind_throw.
  unfold bind at 1, of_result. rewrite Hget, Hf. reflexivity.
Qed.

(** C6.  When the wrapped action returns a value that is falsy or whose
    [then] is not a function, the invocation throws the error whose
    message names the migration. *)
Theorem not_awaitable (m : Migration) (meth : method) (args : list value)
    (st st1 st2 : mstate W) (d r : value) :
  obtain E m st = (Ok d, st1) ->
  call_wrapped E m meth args d st1 = (Ok r, st2) ->
  truthy r = false
    \/ (exists t, get_prop r "then" = Ok t /\ typeof_ t <> TFunction) ->
  Migration_exec E m meth args st =
    (Throw (JsError ("Migration " ++ file m
                     ++ " (or wrapper) didn't return a promise")), st2).
Proof.
  intros Hd Hcall Hbad.
  unfold Migration_exec. rewrite (bind_ok _ Hd).
  unfold exec_on. rewrite (bind_ok _ Hcall).
  assert (Hn : not_a_promise (W:=W) r st2 = (Ok true, st2)).
  { unfold not_a_promise. destruct (truthy r) eqn:Ht; simpl; [|reflexivity].
    destruct Hbad as [Hf|(t & Hget & Hty)]; [discriminate|].
    unfold bind, of_result. rewrite Hget. unfold ret, is_function.
    destruct (typeof_ t); simpl; try reflexivity. now elim Hty. }
  rewrite (bind_ok _ Hn). reflexivity.
Qed.

(** Conversely an awaitable result is awaited and never rejected by the
    test of line 112. *)
Lemma awaitable_passes (r t : value) (st : mstate W) :
  truthy r = true -> get_prop r "then" = Ok t -> typeof_ t = TFunction ->
  not_a_promise r st = (Ok false, st).
Proof.
  intros Ht Hget Hty. unfold not_a_promise. rewrite Ht; simpl.
  unfold bind, of_result. rewrite Hget. unfold ret, is_function.
  rewrite Hty. reflexivity.
Qed.

(** C9, as amended.  For a truthy value [r] given by the resolver,
    [migration()] returns [r.default] when [r.up] and [r.down] are both
    falsy and [r.default] is truthy, and [r] itself in every other case;
    the value returned is [r.default] as it stands, whatever members it
    has, so the step is taken at most once. *)
Theorem default_unwrapping (m : Migration) (st st1 : mstate W) (r : value) :
  load_definition E m st = (Ok r, st1) ->
  truthy r = true ->
  exists u d df,
    get_prop r "up" = Ok u /\ get_prop r "down" = Ok d
    /\ get_prop r "default" = Ok df
    /\ Migration_migration E m st =
         (Ok (if negb (truthy u) && negb (truthy d) && truthy df
              then df else r), st1).
Proof.
  intros Hload Ht.
  destruct (truthy_get_prop r "up" Ht) as [u Hu].
  destruct (truthy_get_prop r "down" Ht) as [d Hd].
  destruct (truthy_get_prop r "default" Ht) as [df Hdf].
  exists u, d, df. repeat split; auto.
  unfold Migration_migration. rewrite (bind_ok _ Hload), Ht.
  unfold unwrap_default, bind, of_result. rewrite Hu.
  destruct (truthy u); simpl; [reflexivity|].
  rewrite Hd. destruct (truthy d); simpl; [reflexivity|].
  rewrite Hdf. destruct (truthy df); reflexivity.
Qed.

(** C10.  If the name formatter in force, applied to the resolved path,
    returns a value that is not a string, the constructor throws and
    builds no unit; and whenever the constructor does build a unit, the
    formatter returned a string, which is the unit's [file]. *)
Theorem constructor_requires_string_name (p : string) (opts : value)
    (st : mstate W) :
  (forall o r st1,
      formatted E p opts st = (Ok (o, r), st1) ->
      typeof_ r <> TString ->
      new_Migration E p opts st =
        (Throw (JsError ("Unexpected migration formatter result for '"
                         ++ path_resolve (cwd E) p
                         ++ "': expected string, got "
                         ++ type_name (typeof_ r))), st1))
  /\
  (forall m st1,
      new_Migration E p opts st = (Ok m, st1) ->
      formatted E p opts st = (Ok (options m, VStr (file m)), st1)
      /\ typeof_ (VStr (file m)) = TString).
Proof.
  split.
  - intros o r st1 Hf Hty. unfold new_Migration.
    rewrite (bind_ok _ Hf); simpl.
    destruct r; try reflexivity. now elim Hty.
  - intros m st1 H. unfold new_Migration in H.
    destruct (bind_inv H) as [([o r] & st2 & Hf & Hk)|(e & _ & He)];
      [|discriminate].
    simpl in Hk. destruct r; try discriminate.
    inversion Hk; subst; simpl. split; [exact Hf|reflexivity].
Qed.

(** A formatter that throws, or options without which the formatter
    cannot be reached, make the constructor throw as well. *)
Lemma constructor_propagates (p : string) (opts : value) (st st1 : mstate W) e :
  formatted E p opts st = (Throw e, st1) ->
  new_Migration E p opts st = (Throw e, st1).
Proof. intros H. unfold new_Migration. now apply bind_throw. Qed.

End UnitErrors.

(* ================================================================== *)
(** ** The Execution Record *)

Lemma recorded_In (n : string) (rec : list string) :
  recorded n rec = true <-> In n rec.
Proof.
  unfold recorded. rewrite existsb_exists. split.
  - intros (x & Hx & Heq). apply String.eqb_eq in Heq. now subst.
  - intros H. exists n. split; [exact H|apply String.eqb_refl].
Qed.

Lemma recorded_nil (n : string) : recorded n [] = false.
Proof. reflexivity. Qed.

Lemma filter_all (A : Type) (f : A -> bool) (l : list A) :
  (forall x, In x l -> f x = true) -> filter f l = l.
Proof.
  induction l as [|a l IH]; simpl; intros H; [reflexivity|].
  rewrite (H a (or_introl eq_refl)). f_equal. apply IH. intros x Hx. apply H. now right.
Qed.

Lemma filter_none (A : Type) (f : A -> bool) (l : list A) :
  (forall x, In x l -> f x = false) -> filter f l = [].
Proof.
  induction l as [|a l IH]; simpl; intros H; [reflexivity|].
  rewrite (H a (or_introl eq_refl)). apply IH. intros x Hx. apply H. now right.
Qed.

Lemma pending_of_empty_record (S : list Migration) : Umzug_pending S [] = S.
Proof. unfold Umzug_pending. apply filter_all. reflexivity. Qed.

Lemma executed_of_own_names (S : list Migration) : Umzug_executed S (names S) = S.
Proof.
  unfold Umzug_executed. apply filter_all. intros m Hm.
  apply recorded_In. unfold names. now apply in_map.
Qed.

Lemma unlog_In (n x : string) (rec : list string) :
  In x (unlogMigration n rec) <-> In x rec /\ x <> n.
Proof.
  unfold unlogMigration. rewrite filter_In. split; intros [H1 H2]; split; auto.
  - intros ->. rewrite String.eqb_refl in H2. discriminate.
  - destruct (String.eqb_spec x n); [contradiction|reflexivity].
Qed.

Lemma unlog_absent (n : string) (rec : list string) :
  ~ In n rec -> unlogMigration n rec = rec.
Proof.
  intros H. unfold unlogMigration. apply filter_all. intros x Hx.
  destruct (String.eqb_spec x n); [subst; contradiction|reflexivity].
Qed.

Lemma unlog_last (n : string) (rec : list string) :
  ~ In n rec -> unlogMigration n (rec ++ [n]) = rec.
Proof.
  intros H. unfold unlogMigration. rewrite filter_app; simpl.
  rewrite String.eqb_refl; simpl. rewrite app_nil_r. now apply unlog_absent.
Qed.

Lemma find_unit_name (S : list Migration) (n : string) (m : Migration) :
  find_unit S n = Some m -> In m S /\ file m = n.
Proof.
  unfold find_unit. intros H. apply find_some in H. destruct H as [H1 H2].
  split; [exact H1|now apply String.eqb_eq].
Qed.

(* ================================================================== *)
(** ** Names: the default formatter and the glob resolver *)

Lemma lookup_set_prop (A : Type) (k k' : string) (v : A) (ps : list (string * A)) :
  lookup k (set_prop k' v ps) = if String.eqb k k' then Some v else lookup k ps.
Proof.
  induction ps as [|[k1 v1] ps IH]; simpl.
  - reflexivity.
  - destruct (String.eqb_spec k' k1) as [->|Hne]; simpl.
    + destruct (String.eqb k k1); reflexivity.
    + rewrite IH. destruct (String.eqb_spec k k1) as [->|Hne'].
      * destruct (String.eqb_spec k1 k') as [Heq|_]; [now elim Hne|reflexivity].
      * reflexivity.
Qed.

Lemma lookup_spread_absent (A : Type) (k : string) (more : list (string * A)) :
  forall base, lookup k more = None -> lookup k (spread base more) = lookup k base.
Proof.
  unfold spread.
  induction more as [|[k1 v1] more IH]; simpl; intros base H; [reflexivity|].
  destruct (String.eqb k k1) eqn:Hk; [discriminate|].
  rewrite (IH _ H), lookup_set_prop. simpl. now rewrite Hk.
Qed.

Section DefaultName.

Context {W : Type} (E : Env W).

(** Without a [nameFormatter] among [options.migrations], the unit's
    name is the base name of its resolved path, extension included. *)
Lemma default_name_is_basename (p : string) (opts om : value) (st : mstate W) :
  get_prop opts "migrations" = Ok om ->
  lookup "nameFormatter" (own_props om) = None ->
  exists o,
    new_Migration E p opts st =
      (Ok {| path := path_resolve (cwd E) p;
             options := o;
             file := basename (path_resolve (cwd E) p) |}, st).
Proof.
  intros Hget Hnone. eexists.
  unfold new_Migration, formatted, merged_options, bind, of_result, ret.
  rewrite Hget. cbn [get_prop].
  rewrite lookup_set_prop, String.eqb_refl.
  cbn [get_prop].
  rewrite (lookup_spread_absent _ _ _ Hnone). simpl. reflexivity.
Qed.

End DefaultName.

(** C8, as amended.  Over the four files of the example the pattern
    [*.sql] yields three units, named [migration1], [migration2] and
    [migration3] after their base names without extension, and the text
    file is left out; the default name formatter of the class [Migration]
    for its part strips the directory only and keeps the extension. *)
Theorem glob_sql_names :
  resolve_glob "*.sql" [] Sample.glob_files
    = [ {| g_name := "migration1"; g_path := "migration1.sql" |};
        {| g_name := "migration2"; g_path := "migration2.sql" |};
        {| g_name := "migration3"; g_path := "migration3.sql" |} ]
  /\ (forall p, In p Sample.glob_files ->
        In p (map g_path (resolve_glob "*.sql" [] Sample.glob_files))
        <-> p <> "should-be-ignored.txt")
  /\ (forall (W : Type) (E : Env W) (p : string) (opts om : value) (st : mstate W),
        get_prop opts "migrations" = Ok om ->
        lookup "nameFormatter" (own_props om) = None ->
        exists o,
          new_Migration E p opts st =
            (Ok {| path := path_resolve (cwd E) p;
                   options := o;
                   file := basename (path_resolve (cwd E) p) |}, st))
  /\ basename (path_resolve "/w" "migration1.sql") = "migration1.sql".
Proof.
  split; [reflexivity|]. split; [|split; [|reflexivity]].
  - intros p Hp. simpl in Hp.
    destruct Hp as [<-|[<-|[<-|[<-|[]]]]]; vm_compute; split;
      try discriminate; try tauto; intros H; try (now elim H);
      repeat (destruct H as [H|H]; try discriminate H); try contradiction.
  - intros W E p opts om st. apply default_name_is_basename.
Qed.

(* ================================================================== *)
(** ** The statements at concrete inputs *)

(** With the default formatter the file [migration1.sql] gives a unit
    named [migration1.sql]: the extension stays, unlike in the name that
    the glob resolver derives from the same file. *)
Lemma default_formatter_keeps_extension :
  new_Migration Sample.env "migration1.sql" Sample.bare_options Sample.st0
    = (Ok {| path := "/w/migration1.sql";
             options := VObj None [("migrations",
                           VObj None [("nameFormatter", default_nameFormatter)])];
             file := "migration1.sql" |}, Sample.st0)
  /\ glob_name "migration1.sql" = "migration1"
  /\ "migration1.sql" <> glob_name "migration1.sql".
Proof. split; [reflexivity|]. split; [reflexivity|]. vm_compute. discriminate. Qed.

Lemma glob_sql_names_witness :
  get_prop Sample.bare_options "migrations" = Ok (VObj None [])
  /\ lookup "nameFormatter" (own_props (VObj None [])) = None
  /\ exists o,
       new_Migration Sample.env "migration1.sql" Sample.bare_options Sample.st0 =
         (Ok {| path := path_resolve (cwd Sample.env) "migration1.sql";
                options := o;
                file := basename (path_resolve (cwd Sample.env) "migration1.sql") |},
          Sample.st0).
Proof.
  split; [reflexivity|]. split; [reflexivity|].
  destruct glob_sql_names as (_ & _ & Hdefault & _).
  apply (Hdefault nat Sample.env "migration1.sql" Sample.bare_options (VObj None []));
    reflexivity.
Defined.

(** A definition whose [up] is [null] carries an [up] member, and yet
    [migration()] answers its [default]. *)
Lemma unwrapped_despite_up_member :
  load_definition Sample.env (Sample.unit_ "nullup") Sample.st0
    = (Ok Sample.null_up_definition,
       {| world := 1; trace := [EvResolver "/w/nullup"] |})
  /\ truthy Sample.null_up_definition = true
  /\ has_member Sample.null_up_definition "up" = true
  /\ Migration_migration Sample.env (Sample.unit_ "nullup") Sample.st0
     = (Ok Sample.good_definition,
        {| world := 1; trace := [EvResolver "/w/nullup"] |})
  /\ Sample.good_definition <> Sample.null_up_definition.
Proof. repeat split; try reflexivity. discriminate. Qed.

(** A [default] that has a [default] of its own is returned as it is. *)
Lemma default_unwrapping_witness :
  load_definition Sample.env (Sample.unit_ "nested") Sample.st0
    = (Ok Sample.nested_default, {| world := 1; trace := [EvResolver "/w/nested"] |})
  /\ truthy Sample.nested_default = true
  /\ Migration_migration Sample.env (Sample.unit_ "nested") Sample.st0
     = (Ok (VObj None [("default", Sample.good_definition)]),
        {| world := 1; trace := [EvResolver "/w/nested"] |}).
Proof.
  assert (H1 : load_definition Sample.env (Sample.unit_ "nested") Sample.st0
               = (Ok Sample.nested_default,
                  {| world := 1; trace := [EvResolver "/w/nested"] |}))
    by reflexivity.
  assert (H2 : truthy Sample.nested_default = true) by reflexivity.
  split; [exact H1|]. split; [exact H2|].
  destruct (default_unwrapping Sample.env _ _ H1 H2)
    as (u & d & df & Hu & Hd & Hdf & Hm).
  inversion Hu; inversion Hd; inversion Hdf; subst. exact Hm.
Defined.

Lemma resolver_returns_nothing_witness :
  load_definition Sample.env Sample.required_unit Sample.st0
    = (Ok VUndefined, {| world := 1; trace := [EvRequire "/w/plain"] |})
  /\ truthy VUndefined = false
  /\ (Migration_migration Sample.env Sample.required_unit Sample.st0
      = (Throw (JsError "Failed to obtain migration definition module for '/w/plain'"),
         {| world := 1; trace := [EvRequire "/w/plain"] |})
      /\ forall meth args,
           Migration_exec Sample.env Sample.required_unit meth args Sample.st0
           = (Throw (JsError "Failed to obtain migration definition module for '/w/plain'"),
              {| world := 1; trace := [EvRequire "/w/plain"] |})).
Proof.
  assert (H1 : load_definition Sample.env Sample.required_unit Sample.st0
               = (Ok VUndefined, {| world := 1; trace := [EvRequire "/w/plain"] |}))
    by reflexivity.
  split; [exact H1|]. split; [reflexivity|].
  exact (resolver_returns_nothing Sample.env _ _ H1 eq_refl).
Defined.

Lemma missing_method_witness :
  obtain Sample.env (Sample.unit_ "uponly") Sample.st0
    = (Ok Sample.up_only, {| world := 1; trace := [EvResolver "/w/uponly"] |})
  /\ get_prop Sample.up_only (method_name Down) = Ok VUndefined
  /\ (Migration_exec Sample.env (Sample.unit_ "uponly") Down [] Sample.st0
      = (Throw (JsError "Could not find migration method: down"),
         {| world := 1; trace := [EvResolver "/w/uponly"] |})
      /\ actions [EvResolver "/w/uponly"] = actions []).
Proof.
  assert (H1 : obtain Sample.env (Sample.unit_ "uponly") Sample.st0
               = (Ok Sample.up_only,
                  {| world := 1; trace := [EvResolver "/w/uponly"] |}))
    by reflexivity.
  split; [exact H1|]. split; [reflexivity|].
  exact (missing_method Sample.env _ Down [] _ H1 eq_refl).
Defined.

Lemma not_awaitable_witness :
  obtain Sample.env (Sample.unit_ "sloppy") Sample.st0
    = (Ok Sample.sloppy_definition,
       {| world := 1; trace := [EvResolver "/w/sloppy"] |})
  /\ call_wrapped Sample.env (Sample.unit_ "sloppy") Up []
       Sample.sloppy_definition {| world := 1; trace := [EvResolver "/w/sloppy"] |}
     = (Ok VUndefined,
        {| world := 3;
           trace := [EvResolver "/w/sloppy"; EvWrap "sloppy" Up; EvAction "sloppy" Up] |})
  /\ Migration_exec Sample.env (Sample.unit_ "sloppy") Up [] Sample.st0
     = (Throw (JsError "Migration sloppy (or wrapper) didn't return a promise"),
        {| world := 3;
           trace := [EvResolver "/w/sloppy"; EvWrap "sloppy" Up; EvAction "sloppy" Up] |}).
Proof.
  assert (H1 : obtain Sample.env (Sample.unit_ "sloppy") Sample.st0
               = (Ok Sample.sloppy_definition,
                  {| world := 1; trace := [EvResolver "/w/sloppy"] |}))
    by reflexivity.
  assert (H2 : call_wrapped Sample.env (Sample.unit_ "sloppy") Up []
                 Sample.sloppy_definition
                 {| world := 1; trace := [EvResolver "/w/sloppy"] |}
               = (Ok VUndefined,
                  {| world := 3;
                     trace := [EvResolver "/w/sloppy"; EvWrap "sloppy" Up;
                               EvAction "sloppy" Up] |}))
    by reflexivity.
  split; [exact H1|]. split; [exact H2|].
  exact (not_awaitable Sample.env _ Up [] _ H1 H2 (or_introl eq_refl)).
Defined.

Lemma constructor_requires_string_name_witness :
  formatted Sample.env "a" Sample.numeric_formatter_options Sample.st0
    = (Ok (Sample.numeric_formatter_options, VNum 7), {| world := 1; trace := [] |})
  /\ typeof_ (VNum 7) <> TString
  /\ new_Migration Sample.env "a" Sample.numeric_formatter_options Sample.st0
     = (Throw (JsError "Unexpected migration formatter result for '/w/a': expected string, got number"),
        {| world := 1; trace := [] |})
  /\ new_Migration Sample.env "a" Sample.user_options Sample.st0
     = (Ok (Sample.unit_ "a"), Sample.st0)
  /\ formatted Sample.env "a" Sample.user_options Sample.st0
     = (Ok (Sample.merged, VStr "a"), Sample.st0).
Proof.
  assert (H1 : formatted Sample.env "a" Sample.numeric_formatter_options Sample.st0
               = (Ok (Sample.numeric_formatter_options, VNum 7),
                  {| world := 1; trace := [] |}))
    by reflexivity.
  assert (H2 : typeof_ (VNum 7) <> TString) by discriminate.
  assert (H3 : new_Migration Sample.env "a" Sample.user_options Sample.st0
               = (Ok (Sample.unit_ "a"), Sample.st0))
    by reflexivity.
  split; [exact H1|]. split; [exact H2|].
  split; [exact (proj1 (constructor_requires_string_name
                          Sample.env "a" Sample.numeric_formatter_options Sample.st0)
                   _ _ _ H1 H2)|].
  split; [exact H3|].
  exact (proj1 (proj2 (constructor_requires_string_name
                         Sample.env "a" Sample.user_options Sample.st0)
                  _ _ H3)).
Defined.

(* ================================================================== *)
(** ** Further properties of the class [Migration] *)

Section StillFacts.

Context {W : Type}.

Lemma still_ret A (a : A) : still (ret (W:=W) a).
Proof. intros st r st' H; inversion H; reflexivity. Qed.

Lemma still_throw A e : still (throw (W:=W) (A:=A) e).
Proof. intros st r st' H; inversion H; reflexivity. Qed.

Lemma still_of_result A (x : result error A) : still (of_result (W:=W) x).
Proof. intros st r st' H; inversion H; reflexivity. Qed.

Lemma still_foreign A (f : W -> result error A * W) : still (foreign f).
Proof.
  intros st r st'. unfold foreign. destruct (f (world st)); intros H.
  inversion H; reflexivity.
Qed.

Lemma still_bind A B (c : M W A) (k : A -> M W B) :
  still c -> (forall a, still (k a)) -> still (bind c k).
Proof.
  intros Hc Hk st r st' H.
  destruct (bind_inv H) as [(a & st1 & H1 & H2)|(e & H1 & _)].
  - rewrite (Hk _ _ _ _ H2). eapply Hc; eauto.
  - eapply Hc; eauto.
Qed.

Lemma of_result_inv A (x : result error A) (st : mstate W) r st' :
  of_result x st = (r, st') -> r = x /\ st' = st.
Proof. intros H; inversion H; auto. Qed.

Lemma emit_inv (e : event) (st : mstate W) r st' :
  emit e st = (r, st') -> r = Ok tt /\ trace st' = trace st ++ [e].
Proof. intros H; inversion H; auto. Qed.

End StillFacts.

Create HintDb still.

#[local] Hint Resolve still_ret still_throw still_of_result still_foreign : still.

Ltac still_step :=
  match goal with
  | |- still (bind _ _) => apply still_bind; [|intro]
  | |- still (if ?b then _ else _) => destruct b
  | |- still (match ?x with _ => _ end) => destruct x
  | |- still _ => solve [auto with still]
  end.

Ltac still_all := repeat still_step.

Lemma prefix_refl (s : string) : String.prefix s s = true.
Proof.
  induction s as [|c s IH]; simpl; [reflexivity|].
  destruct (Ascii.ascii_dec c c) as [_|Hne]; [exact IH|now elim Hne].
Qed.

Lemma lookup_absent_key (A : Type) (k : string) (ps : list (string * A)) :
  ~ In k (map fst ps) -> lookup k ps = None.
Proof.
  induction ps as [|[k1 v1] ps IH]; simpl; intros H; [reflexivity|].
  destruct (String.eqb_spec k k1) as [->|Hne].
  - elim H. now left.
  - apply IH. intros Hin. apply H. now right.
Qed.

(** What an object spread leaves under a key, when the spread object has
    no repeated key. *)
Lemma lookup_spread (A : Type) (k : string) (more : list (string * A)) :
  forall base,
    NoDup (map fst more) ->
    lookup k (spread base more)
    = match lookup k more with
      | Some v => Some v
      | None => lookup k base
      end.
Proof.
  unfold spread.
  induction more as [|[k1 v1] more IH]; simpl; intros base Hnd; [reflexivity|].
  inversion Hnd as [|? ? Hk1 Hnd']; subst.
  rewrite (IH _ Hnd'), lookup_set_prop.
  destruct (String.eqb_spec k k1) as [->|Hne].
  - now rewrite (lookup_absent_key _ _ Hk1).
  - reflexivity.
Qed.

Lemma no_separator_app (a b : string) :
  no_separator (a ++ b) = no_separator a && no_separator b.
Proof.
  induction a as [|c a IH]; simpl; [reflexivity|].
  rewrite IH. now rewrite andb_assoc.
Qed.

Lemma segments_from_clean (s : string) :
  forall cur, no_separator cur = true ->
              forall x, In x (segments_from s cur) -> no_separator x = true.
Proof.
  induction s as [|c s IH]; simpl; intros cur Hcur x Hx.
  - destruct Hx as [<-|[]]. exact Hcur.
  - destruct (Ascii.eqb c "/") eqn:Hc.
    + destruct Hx as [<-|Hx]; [exact Hcur|]. now apply (IH "").
    + apply (IH (cur ++ String c "")%string); [|exact Hx].
      rewrite no_separator_app, Hcur. simpl. now rewrite Hc.
Qed.

Lemma last_nonempty_clean (l : list string) :
  forall acc, no_separator acc = true ->
              (forall x, In x l -> no_separator x = true) ->
              no_separator (last_nonempty l acc) = true.
Proof.
  induction l as [|s l IH]; simpl; intros acc Hacc Hl; [exact Hacc|].
  apply IH.
  - destruct (String.eqb s ""); [exact Hacc|]. apply Hl. now left.
  - intros x Hx. apply Hl. now right.
Qed.

Lemma basename_clean (p : string) : no_separator (basename p) = true.
Proof.
  unfold basename, segments. apply last_nonempty_clean; [reflexivity|].
  apply segments_from_clean. reflexivity.
Qed.

Section ConstructorFacts.

Context {W : Type} (E : Env W).

Lemma still_call_value f this args : still (call_value E f this args).
Proof. unfold call_value. still_all. Qed.

Lemma still_merged_options opts : still (merged_options (W:=W) opts).
Proof. unfold merged_options. still_all. Qed.

Lemma still_formatted p opts : still (formatted E p opts).
Proof.
  unfold formatted.
  apply still_bind; [apply still_merged_options|intro].
  apply still_bind; [auto with still|intro].
  apply still_bind; [auto with still|intro].
  apply still_bind; [apply still_call_value|intro]. auto with still.
Qed.

(** X1.  The parameter [options] is declared optional, yet the constructor
    reads [options.migrations]: without options, be they [undefined] or
    [null], it throws a [TypeError] before anything is called. *)
Theorem constructor_without_options (p : string) (opts : value) (st : mstate W) :
  opts = VUndefined \/ opts = VNull ->
  new_Migration E p opts st = (Throw TypeError, st).
Proof.
  intros [-> | ->]; unfold new_Migration; apply bind_throw; reflexivity.
Qed.


(** What a successful construction says about the unit. *)
Lemma new_Migration_inv (p : string) (opts : value) (st st1 : mstate W)
    (m : Migration) :
  new_Migration E p opts st = (Ok m, st1) ->
  exists om,
    get_prop opts "migrations" = Ok om
    /\ path m = path_resolve (cwd E) p
    /\ options m
       = VObj None
           (set_prop "migrations"
              (VObj None (spread [("nameFormatter", default_nameFormatter)]
                            (own_props om)))
              (own_props opts)).
Proof.
  intros H. unfold new_Migration in H.
  destruct (bind_inv H) as [([o r] & st2 & Hf & Hk)|(e & _ & He)]; [|discriminate].
  simpl in Hk.
  assert (Hm : path m = path_resolve (cwd E) p /\ options m = o).
  { destruct r; try discriminate. inversion Hk; subst; auto. }
  destruct Hm as [Hpath Hopt].
  unfold formatted, merged_options in Hf.
  destruct (bind_inv Hf) as [(o' & st3 & Hm & Hrest)|(e & _ & He)]; [|discriminate].
  destruct (bind_inv Hm) as [(om & st4 & Hg & Hret)|(e & _ & He)]; [|discriminate].
  apply of_result_inv in Hg. destruct Hg as [Hg _].
  inversion Hret; subst o'.
  destruct (bind_inv Hrest) as [(? & ? & _ & Hr2)|(e & _ & He)]; [|discriminate].
  destruct (bind_inv Hr2) as [(? & ? & _ & Hr3)|(e & _ & He)]; [|discriminate].
  destruct (bind_inv Hr3) as [(? & ? & _ & Hr4)|(e & _ & He)]; [|discriminate].
  inversion Hr4.
  exists om. split; [congruence|]. split; [exact Hpath|]. congruence.
Qed.

(** X3.  The constructor keeps what the caller configured: the unit's path
    is the resolved path, every own enumerable property of [options] other
    than [migrations] is found again in [this.options], every own
    enumerable property of [options.migrations] is found again in
    [this.options.migrations], nothing else appears there but
    [nameFormatter], and that one is the default exactly when the caller
    gave none. *)
Theorem constructor_keeps_options (p : string) (opts om : value)
    (st st1 : mstate W) (m : Migration) :
  get_prop opts "migrations" = Ok om ->
  NoDup (map fst (own_props om)) ->
  new_Migration E p opts st = (Ok m, st1) ->
  path m = path_resolve (cwd E) p
  /\ (forall k, k <> "migrations" ->
        lookup k (own_props (options m)) = lookup k (own_props opts))
  /\ exists qs,
       lookup "migrations" (own_props (options m)) = Some (VObj None qs)
       /\ (forall k v, lookup k (own_props om) = Some v -> lookup k qs = Some v)
       /\ (forall k, k <> "nameFormatter" ->
             lookup k (own_props om) = None -> lookup k qs = None)
       /\ (lookup "nameFormatter" (own_props om) = None ->
             lookup "nameFormatter" qs = Some default_nameFormatter).
Proof.
  intros Hom Hnd H.
  destruct (@new_Migration_inv _ _ _ _ _ H) as (om' & Hom' & Hpath & Hopt).
  rewrite Hom in Hom'. inversion Hom'; subst om'.
  rewrite Hopt. cbn [own_props].
  split; [exact Hpath|]. split.
  - intros k Hk'. rewrite lookup_set_prop.
    destruct (String.eqb_spec k "migrations"); [contradiction|reflexivity].
  - eexists. split.
    + rewrite lookup_set_prop. simpl. reflexivity.
    + repeat split.
      * intros k v Hl. rewrite (@lookup_spread _ _ _ _ Hnd), Hl. reflexivity.
      * intros k Hne Hl. rewrite (@lookup_spread _ _ _ _ Hnd), Hl. simpl.
        destruct (String.eqb_spec k "nameFormatter"); [contradiction|reflexivity].
      * intros Hl. rewrite (@lookup_spread _ _ _ _ Hnd), Hl. reflexivity.
Qed.

(** X4.  A formatter configured by the caller names the unit: it is called
    once, on [this.options.migrations], with the resolved path and not
    with the path as given, and the string it returns becomes [file]. *)
Theorem custom_formatter_names_unit (p : string) (opts om : value)
    (id : nat) (fps : list (string * value)) (s : string)
    (st : mstate W) (w' : W) :
  get_prop opts "migrations" = Ok om ->
  NoDup (map fst (own_props om)) ->
  lookup "nameFormatter" (own_props om) = Some (VObj (Some (UserFn id)) fps) ->
  invoke E id
    (VObj None (spread [("nameFormatter", default_nameFormatter)] (own_props om)))
    [VStr (path_resolve (cwd E) p)] (world st) = (Ok (VStr s), w') ->
  exists o,
    new_Migration E p opts st
    = (Ok {| path := path_resolve (cwd E) p; options := o; file := s |},
       {| world := w'; trace := trace st |}).
Proof.
  intros Hom Hnd Hnf Hcall. eexists.
  unfold new_Migration, formatted, merged_options, bind, of_result, ret.
  rewrite Hom. cbn [get_prop].
  rewrite lookup_set_prop, String.eqb_refl. cbn [get_prop].
  rewrite (@lookup_spread _ _ _ _ Hnd), Hnf.
  unfold call_value, foreign. rewrite Hcall. simpl. reflexivity.
Qed.

(** X5.  Under the default formatter a unit's name is the last component
    of its resolved path: it holds no separator, and building the unit
    leaves the world untouched. *)
Theorem default_name_has_no_separator (p : string) (opts om : value)
    (st st1 : mstate W) (m : Migration) :
  get_prop opts "migrations" = Ok om ->
  lookup "nameFormatter" (own_props om) = None ->
  new_Migration E p opts st = (Ok m, st1) ->
  file m = basename (path m) /\ no_separator (file m) = true /\ st1 = st.
Proof.
  intros Hom Hnone H.
  destruct (default_name_is_basename E p opts st Hom Hnone) as [o Ho].
  rewrite Ho in H. inversion H; subst; simpl.
  repeat split. apply basename_clean.
Qed.

End ConstructorFacts.

Lemma string_append_nil_r (s : string) : (s ++ "")%string = s.
Proof. induction s as [|c s IH]; simpl; [reflexivity|now rewrite IH]. Qed.

Lemma string_append_assoc (a b c : string) :
  ((a ++ b) ++ c)%string = (a ++ (b ++ c))%string.
Proof. induction a as [|x a IH]; simpl; [reflexivity|now rewrite IH]. Qed.

Lemma segments_from_plain (x : string) :
  forall cur, no_separator x = true -> segments_from x cur = [(cur ++ x)%string].
Proof.
  induction x as [|c x IH]; simpl; intros cur Hx.
  - now rewrite string_append_nil_r.
  - apply andb_true_iff in Hx. destruct Hx as [Hc Hx].
    apply negb_true_iff in Hc. rewrite Hc.
    rewrite (IH _ Hx), string_append_assoc. reflexivity.
Qed.

Lemma last_segment (dir x : string) :
  no_separator x = true -> x <> "" ->
  forall cur acc,
    last_nonempty (segments_from (dir ++ String "/" x) cur) acc = x.
Proof.
  intros Hx Hne.
  induction dir as [|c dir IH]; intros cur acc; simpl.
  - rewrite (@segments_from_plain x "" Hx). simpl.
    destruct (String.eqb_spec x ""); [contradiction|reflexivity].
  - destruct (Ascii.eqb c "/"); simpl; apply IH.
Qed.

(** [path.basename] drops whatever directory precedes the last component. *)
Lemma basename_strips_directory (dir x : string) :
  no_separator x = true -> x <> "" ->
  basename (dir ++ "/" ++ x) = x.
Proof.
  intros Hx Hne. unfold basename, segments.
  exact (@last_segment dir x Hx Hne "" "").
Qed.

Lemma basename_plain (x : string) : no_separator x = true -> basename x = x.
Proof.
  intros Hx. unfold basename, segments.
  rewrite (@segments_from_plain x "" Hx). simpl.
  destruct (String.eqb_spec x "") as [->|_]; reflexivity.
Qed.

Section TestFileNameFacts.

Context {W : Type} (E : Env W) (C : Coercion W).

(** Under the default formatter [testFileName] compares base names and
    touches nothing. *)
Lemma testFileName_default (m : Migration) (migs : value)
    (fps : list (string * value)) (needle : string) (st : mstate W) :
  get_prop (options m) "migrations" = Ok migs ->
  get_prop migs "nameFormatter" = Ok (VObj (Some DefaultNameFormatter) fps) ->
  Migration_testFileName E C m needle st
  = (Ok (String.prefix (basename needle) (file m)), st).
Proof.
  intros Hm Hnf.
  unfold Migration_testFileName, bind, of_result. rewrite Hm, Hnf. reflexivity.
Qed.

(** X6.  A unit built without a formatter of the caller's recognises the
    path it holds, and the empty needle matches it as it matches every
    unit; neither test changes the state. *)
Theorem unit_matches_own_path (p : string) (opts om : value)
    (st st1 : mstate W) (m : Migration) :
  get_prop opts "migrations" = Ok om ->
  lookup "nameFormatter" (own_props om) = None ->
  new_Migration E p opts st = (Ok m, st1) ->
  forall st2,
    Migration_testFileName E C m (path m) st2 = (Ok true, st2)
    /\ Migration_testFileName E C m "" st2 = (Ok true, st2).
Proof.
  intros Hom Hnone H st2.
  destruct (@new_Migration_inv _ E _ _ _ _ _ H) as (om' & Hom' & _ & Hopt).
  rewrite Hom in Hom'. inversion Hom'; subst om'.
  destruct (@default_name_is_basename _ E p opts om st Hom Hnone) as [o Ho].
  assert (Hfile : file m = basename (path m)).
  { rewrite Ho in H. injection H as Hm _. rewrite <- Hm. reflexivity. }
  assert (Hmig : get_prop (options m) "migrations"
                 = Ok (VObj None (spread [("nameFormatter", default_nameFormatter)]
                                    (own_props om)))).
  { rewrite Hopt. simpl. rewrite lookup_set_prop. reflexivity. }
  assert (Hnf : get_prop (VObj None (spread [("nameFormatter", default_nameFormatter)]
                                       (own_props om))) "nameFormatter"
                = Ok default_nameFormatter).
  { simpl. rewrite (lookup_spread_absent _ _ _ Hnone). reflexivity. }
  split.
  - rewrite (@testFileName_default m _ _ (path m) st2 Hmig Hnf).
    rewrite Hfile. now rewrite prefix_refl.
  - rewrite (@testFileName_default m _ _ "" st2 Hmig Hnf).
    change (basename "") with "". destruct (file m); reflexivity.
Qed.

(** X7.  Under the default formatter the directory of the needle does not
    count: a needle [dir/x] is tested like the bare name [x], that is, for
    being a prefix of the unit's name. *)
Theorem testFileName_ignores_directory (m : Migration) (migs : value)
    (dir x : string) (st : mstate W) :
  get_prop (options m) "migrations" = Ok migs ->
  get_prop migs "nameFormatter" = Ok default_nameFormatter ->
  no_separator x = true ->
  x <> "" ->
  Migration_testFileName E C m (dir ++ "/" ++ x) st
  = (Ok (String.prefix x (file m)), st)
  /\ Migration_testFileName E C m x st
     = Migration_testFileName E C m (dir ++ "/" ++ x) st.
Proof.
  intros Hm Hnf Hx Hne.
  rewrite (@testFileName_default m _ _ (dir ++ "/" ++ x) st Hm Hnf).
  rewrite (@testFileName_default m _ _ x st Hm Hnf).
  rewrite (@basename_strips_directory dir x Hx Hne), (@basename_plain x Hx).
  split; reflexivity.
Qed.

End TestFileNameFacts.

(* ================================================================== *)
(** ** Further properties of [migration()] and [_exec] *)

Section ExecFacts.

Context {W : Type} (E : Env W).

Lemma still_await_value v : still (await_value E v).
Proof. unfold await_value. still_all. Qed.

Lemma still_unwrap_default r : still (unwrap_default (W:=W) r).
Proof. unfold unwrap_default. still_all. Qed.

Lemma still_not_a_promise r : still (not_a_promise (W:=W) r).
Proof. unfold not_a_promise. still_all. Qed.

(** The test of line 112 turns away exactly the values that [await] would
    not wait for. *)
Lemma not_a_promise_thenable (r : value) (st : mstate W) :
  not_a_promise r st = (Ok (negb (thenable r)), st).
Proof.
  unfold not_a_promise, thenable.
  destruct r as [| |b|n| |s|fn ps]; simpl; try reflexivity.
  - destruct b; reflexivity.
  - destruct (Z.eqb n 0); reflexivity.
  - destruct (String.eqb s ""); reflexivity.
  - unfold bind, of_result, ret. destruct (lookup "then" ps); reflexivity.
Qed.

Lemma load_definition_trace (m : Migration) (migs cr : value)
    (st : mstate W) r st' :
  get_prop (options m) "migrations" = Ok migs ->
  get_prop migs "customResolver" = Ok cr ->
  load_definition E m st = (r, st') ->
  trace st' = trace st ++ [load_event m cr].
Proof.
  intros Hm Hc H. unfold load_definition in H.
  unfold bind at 1, of_result at 1 in H. rewrite Hm in H.
  unfold bind at 1, of_result at 1 in H. rewrite Hc in H.
  unfold load_event. destruct (is_function cr).
  - destruct (bind_inv H) as [(a & st1 & H1 & H2)|(e & H1 & _)].
    + apply emit_inv in H1. destruct H1 as [_ H1].
      rewrite (still_call_value E _ _ _ _ H2). exact H1.
    + discriminate.
  - destruct (bind_inv H) as [(a & st1 & H1 & H2)|(e & H1 & _)].
    + apply emit_inv in H1. destruct H1 as [_ H1].
      rewrite (still_foreign _ _ H2). exact H1.
    + discriminate.
Qed.

Lemma migration_trace (m : Migration) (migs cr : value)
    (st : mstate W) r st' :
  get_prop (options m) "migrations" = Ok migs ->
  get_prop migs "customResolver" = Ok cr ->
  Migration_migration E m st = (r, st') ->
  trace st' = trace st ++ [load_event m cr].
Proof.
  intros Hm Hc H. unfold Migration_migration in H.
  destruct (bind_inv H) as [(v & st1 & H1 & H2)|(e & H1 & _)].
  - rewrite <- (@load_definition_trace _ _ _ _ _ _ Hm Hc H1).
    destruct (truthy v).
    + exact (still_unwrap_default _ _ H2).
    + exact (still_throw H2).
  - exact (@load_definition_trace _ _ _ _ _ _ Hm Hc H1).
Qed.


(** X9.  What [migration()] returns is never falsy. *)
Theorem migration_never_falsy (m : Migration) (st st' : mstate W) (v : value) :
  Migration_migration E m st = (Ok v, st') -> truthy v = true.
Proof.
  intros H. unfold Migration_migration in H.
  destruct (bind_inv H) as [(r & st1 & _ & H2)|(e & _ & He)]; [|discriminate].
  destruct (truthy r) eqn:Hr; [|discriminate].
  unfold unwrap_default, bind, of_result in H2.
  destruct (get_prop r "up") as [u|]; [|discriminate].
  destruct (truthy u); [inversion H2; subst; exact Hr|].
  destruct (get_prop r "down") as [d|]; [|discriminate].
  destruct (truthy d); [inversion H2; subst; exact Hr|].
  destruct (get_prop r "default") as [df|]; [|discriminate].
  destruct (truthy df) eqn:Hdf; inversion H2; subst; assumption.
Qed.

Lemma obtain_trace (m : Migration) (migs cr : value) (st : mstate W) r st' :
  get_prop (options m) "migrations" = Ok migs ->
  get_prop migs "customResolver" = Ok cr ->
  obtain E m st = (r, st') ->
  trace st' = trace st ++ [load_event m cr].
Proof.
  intros Hm Hc H. unfold obtain in H.
  destruct (bind_inv H) as [(v & st1 & H1 & H2)|(e & H1 & _)].
  - rewrite (still_await_value _ _ H2).
    exact (@migration_trace _ _ _ _ _ _ Hm Hc H1).
  - exact (@migration_trace _ _ _ _ _ _ Hm Hc H1).
Qed.

Lemma fn_apply_trace (m : Migration) (meth : method) (f this : value)
    (args : list value) (st : mstate W) r st' :
  fn_apply E m meth f this args st = (r, st') ->
  (trace st' = trace st /\ r = Throw TypeError)
  \/ trace st' = trace st ++ [EvAction (file m) meth].
Proof.
  intros H. unfold fn_apply in H.
  assert (Hcall : forall g t a,
             (emit (EvAction (file m) meth) ;;; call_value E g t a) st = (r, st') ->
             trace st' = trace st ++ [EvAction (file m) meth]).
  { intros g t a Hc.
    destruct (bind_inv Hc) as [(u & st1 & H1 & H2)|(e & H1 & _)]; [|discriminate].
    apply emit_inv in H1. destruct H1 as [_ H1].
    now rewrite (still_call_value E _ _ _ _ H2). }
  destruct f as [| | | | | |c ps]; try (left; inversion H; auto; fail).
  destruct (lookup "apply" ps) as [ap|].
  - destruct (is_function ap); [right; eapply Hcall; eauto|left; inversion H; auto].
  - destruct c; [right; eapply Hcall; eauto|left; inversion H; auto].
Qed.

Lemma call_wrapped_trace (m : Migration) (meth : method) (args : list value)
    (d : value) (st : mstate W) r st' :
  call_wrapped E m meth args d st = (r, st') ->
  exists rest,
    trace st' = trace st ++ rest
    /\ (rest = [] \/ rest = [EvWrap (file m) meth]
        \/ rest = [EvWrap (file m) meth; EvAction (file m) meth])
    /\ (forall v, r = Ok v ->
          rest = [EvWrap (file m) meth; EvAction (file m) meth]).
Proof.
  intros H. unfold call_wrapped in H.
  destruct (bind_inv H) as [(f & st1 & H1 & H2)|(e & H1 & ->)]; clear H.
  2:{ exists []. rewrite (still_of_result H1), app_nil_r.
      repeat split; auto. discriminate. }
  pose proof (still_of_result H1) as E1. clear H1.
  destruct (negb (truthy f)).
  { exists []. rewrite (still_throw H2), app_nil_r. inversion H2; subst.
    repeat split; auto. discriminate. }
  destruct (bind_inv H2) as [(migs & st2 & H3 & H4)|(e & H3 & ->)]; clear H2.
  2:{ exists []. rewrite (still_of_result H3), app_nil_r.
      repeat split; auto. discriminate. }
  pose proof (still_of_result H3) as E2. clear H3.
  destruct (bind_inv H4) as [(wrap & st3 & H5 & H6)|(e & H5 & ->)]; clear H4.
  2:{ exists []. rewrite (still_of_result H5), app_nil_r.
      repeat split; auto; congruence. }
  pose proof (still_of_result H5) as E3. clear H5.
  destruct (bind_inv H6) as [(u & st4 & H7 & H8)|(e & H7 & _)]; clear H6;
    [|discriminate].
  apply emit_inv in H7. destruct H7 as [_ E4].
  assert (Hw : trace st4 = trace st ++ [EvWrap (file m) meth]) by congruence.
  clear E1 E2 E3 E4.
  destruct (bind_inv H8) as [(wf & st5 & H9 & H10)|(e & H9 & ->)]; clear H8.
  2:{ exists [EvWrap (file m) meth].
      rewrite (still_call_value E _ _ _ _ H9), Hw.
      repeat split; auto. discriminate. }
  pose proof (still_call_value E _ _ _ _ H9) as E5. clear H9.
  destruct (@fn_apply_trace _ _ _ _ _ _ _ _ H10) as [[Ht ->]|Ht].
  - exists [EvWrap (file m) meth]. rewrite Ht, E5, Hw.
    repeat split; auto. discriminate.
  - exists [EvWrap (file m) meth; EvAction (file m) meth].
    rewrite Ht, E5, Hw, <- app_assoc. repeat split; auto.
Qed.


End ExecFacts.

Section ExecOutcomes.

Context {W : Type} (E : Env W).

Lemma call_value_not_function (w this : value) (args : list value) (st : mstate W) :
  is_function w = false -> call_value E w this args st = (Throw TypeError, st).
Proof.
  destruct w as [| | | | | |[c|] ps]; try reflexivity. discriminate.
Qed.

Lemma fn_apply_not_applicable (m : Migration) (meth : method) (wf this : value)
    (args : list value) (st : mstate W) :
  applicable wf = false -> fn_apply E m meth wf this args st = (Throw TypeError, st).
Proof.
  destruct wf as [| | | | | |c ps]; try reflexivity. simpl.
  destruct (lookup "apply" ps) as [ap|].
  - intros ->. reflexivity.
  - destruct c; [discriminate|reflexivity].
Qed.

(** A call to a function that the user supplied is a call of the
    environment. *)
Lemma call_value_user (id : nat) (ps : list (string * value)) (this : value)
    (args : list value) (st : mstate W) :
  call_value E (VObj (Some (UserFn id)) ps) this args st
  = (fst (invoke E id this args (world st)),
     {| world := snd (invoke E id this args (world st)); trace := trace st |}).
Proof.
  unfold call_value, foreign. destruct (invoke E id this args (world st)).
  reflexivity.
Qed.

(** Lines 105-110 when the wrapper is a function of the user's. *)
Lemma call_wrapped_user (m : Migration) (meth : method) (args : list value)
    (d f migs : value) (wid : nat) (wps : list (string * value))
    (st1 : mstate W) :
  get_prop d (method_name meth) = Ok f ->
  truthy f = true ->
  get_prop (options m) "migrations" = Ok migs ->
  get_prop migs "wrap" = Ok (VObj (Some (UserFn wid)) wps) ->
  call_wrapped E m meth args d st1
  = match invoke E wid migs [f] (world st1) with
    | (Ok wf, w2) =>
        fn_apply E m meth wf d args
          {| world := w2; trace := trace st1 ++ [EvWrap (file m) meth] |}
    | (Throw e, w2) =>
        (Throw e, {| world := w2; trace := trace st1 ++ [EvWrap (file m) meth] |})
    end.
Proof.
  intros Hf Ht Hm Hw.
  unfold call_wrapped, bind, of_result, emit. rewrite Hf, Ht. simpl.
  rewrite Hm, Hw. unfold call_value, foreign. cbn [world trace].
  destruct (invoke E wid migs [f] (world st1)) as [[wf|e] w2]; reflexivity.
Qed.

Lemma fn_apply_plain (m : Migration) (meth : method) (aid : nat)
    (aps : list (string * value)) (this : value) (args : list value)
    (st : mstate W) :
  lookup "apply" aps = None ->
  fn_apply E m meth (VObj (Some (UserFn aid)) aps) this args st
  = (fst (invoke E aid this args (world st)),
     {| world := snd (invoke E aid this args (world st));
        trace := trace st ++ [EvAction (file m) meth] |}).
Proof.
  intros Hap. unfold fn_apply. rewrite Hap.
  unfold bind, emit, call_value, foreign. simpl.
  destruct (invoke E aid this args (world st)). reflexivity.
Qed.

Lemma fn_apply_own (m : Migration) (meth : method) (c : option callee)
    (ps xps : list (string * value)) (id : nat) (this : value)
    (args : list value) (st : mstate W) :
  lookup "apply" ps = Some (VObj (Some (UserFn id)) xps) ->
  fn_apply E m meth (VObj c ps) this args st
  = (fst (invoke E id (VObj c ps) [this; js_array args] (world st)),
     {| world := snd (invoke E id (VObj c ps) [this; js_array args] (world st));
        trace := trace st ++ [EvAction (file m) meth] |}).
Proof.
  intros Hap. unfold fn_apply. rewrite Hap.
  unfold bind, emit, call_value, foreign. simpl.
  destruct (invoke E id (VObj c ps) [this; js_array args] (world st)).
  reflexivity.
Qed.

(** Lines 112-116 on a thenable. *)
Lemma exec_on_awaits (m : Migration) (meth : method) (args : list value)
    (d r : value) (st1 st2 : mstate W) :
  call_wrapped E m meth args d st1 = (Ok r, st2) ->
  thenable r = true ->
  exec_on E m meth args d st1
  = match settle E r (world st2) with
    | (Ok _, w) => (Ok tt, {| world := w; trace := trace st2 |})
    | (Throw e, w) => (Throw e, {| world := w; trace := trace st2 |})
    end.
Proof.
  intros Hc Hth. unfold exec_on. rewrite (bind_ok _ Hc).
  unfold bind at 1. rewrite not_a_promise_thenable, Hth. simpl.
  unfold bind, await_value, foreign, ret. rewrite Hth.
  destruct (settle E r (world st2)) as [[v|e] w]; reflexivity.
Qed.

Lemma actions_after_wrap (t : list event) (f : string) (meth : method) :
  actions (t ++ [EvWrap f meth]) = actions t.
Proof. rewrite actions_app. simpl. apply app_nil_r. Qed.

(** X11.  An invocation succeeds exactly when the definition is obtained,
    the wrapped action returns a thenable, and that thenable is
    fulfilled; the state it leaves is the one in which the thenable
    settled. *)
Theorem exec_succeeds_iff (m : Migration) (meth : method) (args : list value)
    (st st' : mstate W) :
  Migration_exec E m meth args st = (Ok tt, st')
  <-> exists d st1 r st2 v,
        obtain E m st = (Ok d, st1)
        /\ call_wrapped E m meth args d st1 = (Ok r, st2)
        /\ thenable r = true
        /\ foreign (settle E r) st2 = (Ok v, st').
Proof.
  split.
  - intros H. unfold Migration_exec in H.
    destruct (bind_inv H) as [(d & st1 & H1 & H2)|(e & _ & He)]; [|discriminate].
    unfold exec_on in H2.
    destruct (bind_inv H2) as [(r & st2 & H3 & H4)|(e & _ & He)]; [|discriminate].
    unfold bind at 1 in H4. rewrite not_a_promise_thenable in H4.
    destruct (thenable r) eqn:Hth; simpl in H4; [|discriminate].
    destruct (bind_inv H4) as [(v & st3 & H5 & H6)|(e & _ & He)]; [|discriminate].
    inversion H6; subst st3.
    unfold await_value in H5. rewrite Hth in H5.
    exists d, st1, r, st2, v. auto.
  - intros (d & st1 & r & st2 & v & H1 & H3 & Hth & H5).
    unfold Migration_exec. rewrite (bind_ok _ H1).
    unfold exec_on. rewrite (bind_ok _ H3).
    unfold bind at 1. rewrite not_a_promise_thenable, Hth. simpl.
    unfold bind, await_value. rewrite Hth, H5. reflexivity.
Qed.

(** X12.  The constructor gives [wrap] no default.  When the method is
    there but [options.migrations.wrap] is not a function, the invocation
    throws a [TypeError] and no action is invoked. *)
Theorem exec_without_wrap (m : Migration) (meth : method) (args : list value)
    (st st1 : mstate W) (d f migs w : value) :
  obtain E m st = (Ok d, st1) ->
  get_prop d (method_name meth) = Ok f ->
  truthy f = true ->
  get_prop (options m) "migrations" = Ok migs ->
  get_prop migs "wrap" = Ok w ->
  is_function w = false ->
  Migration_exec E m meth args st
  = (Throw TypeError,
     {| world := world st1; trace := trace st1 ++ [EvWrap (file m) meth] |})
  /\ actions (trace st1 ++ [EvWrap (file m) meth]) = actions (trace st).
Proof.
  intros Hd Hf Ht Hm Hw Hnf. split.
  - unfold Migration_exec. rewrite (bind_ok _ Hd).
    unfold exec_on. apply bind_throw.
    unfold call_wrapped, bind, of_result, emit. rewrite Hf, Ht. simpl.
    rewrite Hm, Hw. now rewrite (@call_value_not_function _ _ _ _ Hnf).
  - rewrite actions_after_wrap. exact (quiet_obtain E m st Hd).
Qed.

(** X13.  When what the wrapper returns has no member [apply] that can be
    called, be it a value that is not a function and has no [apply]
    function of its own, or a function whose own [apply] is not a
    function, the invocation throws a [TypeError] and no action is
    invoked. *)
Theorem wrapper_returns_no_function (m : Migration) (meth : method)
    (args : list value) (st st1 st2 : mstate W) (d f migs w wf : value) :
  obtain E m st = (Ok d, st1) ->
  get_prop d (method_name meth) = Ok f ->
  truthy f = true ->
  get_prop (options m) "migrations" = Ok migs ->
  get_prop migs "wrap" = Ok w ->
  call_value E w migs [f]
    {| world := world st1; trace := trace st1 ++ [EvWrap (file m) meth] |}
  = (Ok wf, st2) ->
  applicable wf = false ->
  Migration_exec E m meth args st = (Throw TypeError, st2)
  /\ actions (trace st2) = actions (trace st).
Proof.
  intros Hd Hf Ht Hm Hw Hcall Hnf. split.
  - unfold Migration_exec. rewrite (bind_ok _ Hd).
    unfold exec_on. apply bind_throw.
    unfold call_wrapped, bind, of_result, emit. rewrite Hf, Ht. simpl.
    rewrite Hm, Hw, Hcall. now apply fn_apply_not_applicable.
  - rewrite (quiet_call_value E _ _ _ _ Hcall). simpl.
    rewrite actions_after_wrap. exact (quiet_obtain E m st Hd).
Qed.

(** X14.  What user code throws reaches the caller as it is.  When the
    wrapper throws [e], or the function it returned throws [e] on being
    called on the definition with the arguments of the invocation, or the
    promise that function returned is rejected with [e], the invocation
    throws [e], in the world in which the failure happened. *)
Theorem user_errors_reach_caller (m : Migration) (meth : method)
    (args : list value) (st st1 : mstate W) (d f migs : value)
    (wid : nat) (wps : list (string * value)) (e : error) (w' : W)
    (t' : list event) :
  obtain E m st = (Ok d, st1) ->
  get_prop d (method_name meth) = Ok f ->
  truthy f = true ->
  get_prop (options m) "migrations" = Ok migs ->
  get_prop migs "wrap" = Ok (VObj (Some (UserFn wid)) wps) ->
  (invoke E wid migs [f] (world st1) = (Throw e, w')
   /\ t' = trace st1 ++ [EvWrap (file m) meth])
  \/ (exists aid aps w2,
        invoke E wid migs [f] (world st1)
        = (Ok (VObj (Some (UserFn aid)) aps), w2)
        /\ lookup "apply" aps = None
        /\ t' = trace st1 ++ [EvWrap (file m) meth; EvAction (file m) meth]
        /\ (invoke E aid d args w2 = (Throw e, w')
            \/ exists r w3,
                 invoke E aid d args w2 = (Ok r, w3)
                 /\ thenable r = true
                 /\ settle E r w3 = (Throw e, w'))) ->
  Migration_exec E m meth args st = (Throw e, {| world := w'; trace := t' |}).
Proof.
  intros Hd Hf Ht Hm Hw Hcase.
  pose proof (@call_wrapped_user m meth args d f migs wid wps st1 Hf Ht Hm Hw)
    as Hcw.
  unfold Migration_exec. rewrite (bind_ok _ Hd).
  destruct Hcase as [[Hi ->]|(aid & aps & w2 & Hi & Hap & -> & Hact)];
    rewrite Hi in Hcw.
  - unfold exec_on. apply bind_throw. exact Hcw.
  - rewrite (@fn_apply_plain m meth aid aps d args _ Hap) in Hcw.
    cbn [world trace] in Hcw. rewrite <- app_assoc in Hcw. simpl in Hcw.
    destruct Hact as [Ha|(r & w3 & Ha & Hth & Hs)]; rewrite Ha in Hcw;
      cbn [fst snd] in Hcw.
    + unfold exec_on. apply bind_throw. exact Hcw.
    + rewrite (@exec_on_awaits _ _ _ _ _ _ _ Hcw Hth). cbn [world trace].
      rewrite Hs. reflexivity.
Qed.

(** X15.  The resolver may be asynchronous.  When it returns a thenable
    without [up], [down] and [default], the tests of lines 61-67 see the
    thenable, [migration()] returns it as it is, and the definition that
    [_exec] works on is what the thenable settles to; should that be
    [undefined] or [null], the invocation throws a [TypeError]. *)
Theorem asynchronous_resolver (m : Migration) (st st1 : mstate W) (r : value) :
  load_definition E m st = (Ok r, st1) ->
  thenable r = true ->
  (forall k, In k ["up"; "down"; "default"] -> lookup k (own_props r) = None) ->
  Migration_migration E m st = (Ok r, st1)
  /\ obtain E m st = foreign (settle E r) st1
  /\ forall meth args d st2,
       foreign (settle E r) st1 = (Ok d, st2) ->
       d = VUndefined \/ d = VNull ->
       Migration_exec E m meth args st = (Throw TypeError, st2).
Proof.
  intros Hload Hth Hnone.
  destruct r as [| | | | | |fn ps]; try discriminate.
  simpl in Hnone.
  assert (Hm : Migration_migration E m st = (Ok (VObj fn ps), st1)).
  { unfold Migration_migration. rewrite (bind_ok _ Hload). simpl.
    unfold unwrap_default, bind, of_result. simpl.
    rewrite (Hnone "up"), (Hnone "down"), (Hnone "default"); simpl; auto. }
  assert (Ho : obtain E m st = foreign (settle E (VObj fn ps)) st1).
  { unfold obtain. rewrite (bind_ok _ Hm). unfold await_value. now rewrite Hth. }
  split; [exact Hm|]. split; [exact Ho|].
  intros meth args d st2 Hs Hd. unfold Migration_exec.
  unfold bind at 1. rewrite Ho, Hs.
  unfold exec_on. apply bind_throw. unfold call_wrapped. apply bind_throw.
  destruct Hd as [-> | ->]; reflexivity.
Qed.

End ExecOutcomes.

(* ================================================================== *)
(** ** The further properties at concrete inputs *)

Lemma constructor_without_options_witness :
  (VUndefined = VUndefined \/ VUndefined = VNull)
  /\ new_Migration Sample.env "a" VUndefined Sample.st0
     = (Throw TypeError, Sample.st0).
Proof.
  split; [now left|].
  apply (@constructor_without_options nat Sample.env "a" VUndefined Sample.st0).
  now left.
Defined.

Lemma constructor_keeps_options_witness :
  get_prop Async.renaming_options "migrations"
    = Ok (VObj None [("nameFormatter", VObj (Some (UserFn 3)) []);
                     ("wrap", VObj (Some (UserFn 1)) [])])
  /\ NoDup ["nameFormatter"; "wrap"]
  /\ new_Migration Async.env "a" Async.renaming_options Async.st0
     = (Ok Async.renamed_unit, {| world := 1; trace := [] |})
  /\ path Async.renamed_unit = "/w/a"
  /\ lookup "verbose" (own_props (options Async.renamed_unit)) = Some (VBool true).
Proof.
  assert (Hnd : NoDup ["nameFormatter"; "wrap"]).
  { repeat constructor; simpl; intuition discriminate. }
  assert (Hnew : new_Migration Async.env "a" Async.renaming_options Async.st0
                 = (Ok Async.renamed_unit, {| world := 1; trace := [] |}))
    by reflexivity.
  split; [reflexivity|]. split; [exact Hnd|]. split; [exact Hnew|].
  destruct (@constructor_keeps_options nat Async.env "a" Async.renaming_options
              (VObj None [("nameFormatter", VObj (Some (UserFn 3)) []);
                          ("wrap", VObj (Some (UserFn 1)) [])])
              Async.st0 {| world := 1; trace := [] |} Async.renamed_unit
              eq_refl Hnd Hnew) as (Hpath & Hkeep & _).
  split; [exact Hpath|]. apply (Hkeep "verbose"). discriminate.
Defined.

Lemma custom_formatter_names_unit_witness :
  get_prop Async.renaming_options "migrations"
    = Ok (VObj None [("nameFormatter", VObj (Some (UserFn 3)) []);
                     ("wrap", VObj (Some (UserFn 1)) [])])
  /\ NoDup ["nameFormatter"; "wrap"]
  /\ exists o,
       new_Migration Async.env "a" Async.renaming_options Async.st0
       = (Ok {| path := "/w/a"; options := o; file := "renamed" |},
          {| world := 1; trace := [] |}).
Proof.
  assert (Hnd : NoDup ["nameFormatter"; "wrap"]).
  { repeat constructor; simpl; intuition discriminate. }
  split; [reflexivity|]. split; [exact Hnd|].
  exact (@custom_formatter_names_unit nat Async.env "a" Async.renaming_options
           (VObj None [("nameFormatter", VObj (Some (UserFn 3)) []);
                       ("wrap", VObj (Some (UserFn 1)) [])])
           3 [] "renamed" Async.st0 1 eq_refl Hnd eq_refl eq_refl).
Defined.

Lemma default_name_has_no_separator_witness :
  get_prop Sample.bare_options "migrations" = Ok (VObj None [])
  /\ new_Migration Sample.env "sub/migration1.sql" Sample.bare_options Sample.st0
     = (Ok {| path := "/w/sub/migration1.sql";
              options := VObj None [("migrations",
                            VObj None [("nameFormatter", default_nameFormatter)])];
              file := "migration1.sql" |}, Sample.st0)
  /\ no_separator "migration1.sql" = true.
Proof.
  assert (Hnew : new_Migration Sample.env "sub/migration1.sql" Sample.bare_options
                   Sample.st0
                 = (Ok {| path := "/w/sub/migration1.sql";
                          options := VObj None [("migrations",
                                        VObj None [("nameFormatter",
                                                    default_nameFormatter)])];
                          file := "migration1.sql" |}, Sample.st0))
    by reflexivity.
  split; [reflexivity|]. split; [exact Hnew|].
  exact (proj1 (proj2 (@default_name_has_no_separator nat Sample.env
                         "sub/migration1.sql" Sample.bare_options (VObj None [])
                         Sample.st0 Sample.st0 _ eq_refl eq_refl Hnew))).
Defined.

Lemma unit_matches_own_path_witness :
  new_Migration Sample.env "sub/migration1.sql" Sample.bare_options Sample.st0
    = (Ok {| path := "/w/sub/migration1.sql";
             options := VObj None [("migrations",
                           VObj None [("nameFormatter", default_nameFormatter)])];
             file := "migration1.sql" |}, Sample.st0)
  /\ Migration_testFileName Sample.env Async.coercion
       {| path := "/w/sub/migration1.sql";
          options := VObj None [("migrations",
                        VObj None [("nameFormatter", default_nameFormatter)])];
          file := "migration1.sql" |}
       "/w/sub/migration1.sql" Sample.st0
     = (Ok true, Sample.st0).
Proof.
  assert (Hnew : new_Migration Sample.env "sub/migration1.sql" Sample.bare_options
                   Sample.st0
                 = (Ok {| path := "/w/sub/migration1.sql";
                          options := VObj None [("migrations",
                                        VObj None [("nameFormatter",
                                                    default_nameFormatter)])];
                          file := "migration1.sql" |}, Sample.st0))
    by reflexivity.
  split; [exact Hnew|].
  exact (proj1 (@unit_matches_own_path nat Sample.env Async.coercion
                  "sub/migration1.sql" Sample.bare_options (VObj None [])
                  Sample.st0 Sample.st0 _ eq_refl eq_refl Hnew Sample.st0)).
Defined.

Lemma testFileName_ignores_directory_witness :
  no_separator "2020" = true
  /\ "2020" <> ""
  /\ Migration_testFileName Sample.env Async.coercion (Sample.unit_ "20200101-init")
       "some/dir/2020" Sample.st0
     = (Ok true, Sample.st0).
Proof.
  assert (Hne : "2020" <> "") by discriminate.
  split; [reflexivity|]. split; [exact Hne|].
  exact (proj1 (@testFileName_ignores_directory nat Sample.env Async.coercion
                  (Sample.unit_ "20200101-init") _ "some/dir" "2020" Sample.st0
                  eq_refl eq_refl eq_refl Hne)).
Defined.


Lemma migration_never_falsy_witness :
  Migration_migration Sample.env (Sample.unit_ "a") Sample.st0
    = (Ok Sample.good_definition, {| world := 1; trace := [EvResolver "/w/a"] |})
  /\ truthy Sample.good_definition = true.
Proof.
  assert (H : Migration_migration Sample.env (Sample.unit_ "a") Sample.st0
              = (Ok Sample.good_definition,
                 {| world := 1; trace := [EvResolver "/w/a"] |}))
    by reflexivity.
  split; [exact H|].
  exact (@migration_never_falsy nat Sample.env _ _ _ _ H).
Defined.


Lemma exec_without_wrap_witness :
  obtain Sample.env Async.unwrapped_unit Sample.st0
    = (Ok Sample.good_definition, {| world := 1; trace := [EvResolver "/w/a"] |})
  /\ is_function VUndefined = false
  /\ Migration_exec Sample.env Async.unwrapped_unit Up [] Sample.st0
     = (Throw TypeError,
        {| world := 1; trace := [EvResolver "/w/a"; EvWrap "a" Up] |}).
Proof.
  assert (H : obtain Sample.env Async.unwrapped_unit Sample.st0
              = (Ok Sample.good_definition,
                 {| world := 1; trace := [EvResolver "/w/a"] |}))
    by reflexivity.
  split; [exact H|]. split; [reflexivity|].
  exact (proj1 (@exec_without_wrap nat Sample.env Async.unwrapped_unit Up []
                  Sample.st0 _ Sample.good_definition (VObj (Some (UserFn 10)) [])
                  _ VUndefined H eq_refl eq_refl eq_refl eq_refl eq_refl)).
Defined.

Lemma wrapper_returns_no_function_witness :
  obtain Sample.env Async.miswrapped_unit Sample.st0
    = (Ok Sample.good_definition, {| world := 1; trace := [EvResolver "/w/a"] |})
  /\ applicable (VNum 7) = false
  /\ Migration_exec Sample.env Async.miswrapped_unit Up [] Sample.st0
     = (Throw TypeError,
        {| world := 2; trace := [EvResolver "/w/a"; EvWrap "a" Up] |}).
Proof.
  assert (H : obtain Sample.env Async.miswrapped_unit Sample.st0
              = (Ok Sample.good_definition,
                 {| world := 1; trace := [EvResolver "/w/a"] |}))
    by reflexivity.
  split; [exact H|]. split; [reflexivity|].
  exact (proj1 (@wrapper_returns_no_function nat Sample.env Async.miswrapped_unit
                  Up [] Sample.st0 _
                  {| world := 2; trace := [EvResolver "/w/a"; EvWrap "a" Up] |}
                  Sample.good_definition (VObj (Some (UserFn 10)) [])
                  _ (VObj (Some (UserFn 2)) []) (VNum 7)
                  H eq_refl eq_refl eq_refl eq_refl eq_refl eq_refl)).
Defined.

Lemma user_errors_reach_caller_witness :
  obtain Async.env (Async.unit_ "a") Async.st0
    = (Ok Async.definition, {| world := 2; trace := [EvResolver "/w/a"] |})
  /\ invoke Async.env 1
       (VObj None [("nameFormatter", default_nameFormatter);
                   ("wrap", VObj (Some (UserFn 1)) []);
                   ("customResolver", VObj (Some (UserFn 0)) [])])
       [VObj (Some (UserFn 10)) []] 2
     = (Ok (VObj (Some (UserFn 10)) []), 3)
  /\ invoke Async.env 10 Async.definition [] 3 = (Ok Async.rejecting_promise, 4)
  /\ settle Async.env Async.rejecting_promise 4 = (Throw Async.rejection, 5)
  /\ Migration_exec Async.env (Async.unit_ "a") Up [] Async.st0
     = (Throw Async.rejection,
        {| world := 5;
           trace := [EvResolver "/w/a"; EvWrap "a" Up; EvAction "a" Up] |}).
Proof.
  assert (H1 : obtain Async.env (Async.unit_ "a") Async.st0
               = (Ok Async.definition,
                  {| world := 2; trace := [EvResolver "/w/a"] |}))
    by reflexivity.
  split; [exact H1|]. split; [reflexivity|]. split; [reflexivity|].
  split; [reflexivity|].
  apply (@user_errors_reach_caller nat Async.env (Async.unit_ "a") Up []
           Async.st0 _ Async.definition (VObj (Some (UserFn 10)) [])
           (VObj None [("nameFormatter", default_nameFormatter);
                       ("wrap", VObj (Some (UserFn 1)) []);
                       ("customResolver", VObj (Some (UserFn 0)) [])])
           1 [] Async.rejection 5
           [EvResolver "/w/a"; EvWrap "a" Up; EvAction "a" Up]
           H1 eq_refl eq_refl eq_refl eq_refl).
  right. exists 10, [], 3.
  split; [reflexivity|]. split; [reflexivity|]. split; [reflexivity|].
  right. exists Async.rejecting_promise, 4.
  split; [reflexivity|]. split; reflexivity.
Defined.

Lemma asynchronous_resolver_witness :
  load_definition Async.env (Async.unit_ "a") Async.st0
    = (Ok Async.pending_definition, {| world := 1; trace := [EvResolver "/w/a"] |})
  /\ thenable Async.pending_definition = true
  /\ Migration_migration Async.env (Async.unit_ "a") Async.st0
     = (Ok Async.pending_definition, {| world := 1; trace := [EvResolver "/w/a"] |})
  /\ obtain Async.env (Async.unit_ "a") Async.st0
     = (Ok Async.definition, {| world := 2; trace := [EvResolver "/w/a"] |}).
Proof.
  assert (H : load_definition Async.env (Async.unit_ "a") Async.st0
              = (Ok Async.pending_definition,
                 {| world := 1; trace := [EvResolver "/w/a"] |}))
    by reflexivity.
  assert (Hnone : forall k, In k ["up"; "down"; "default"] ->
                            lookup k (own_props Async.pending_definition) = None).
  { intros k [<-|[<-|[<-|[]]]]; reflexivity. }
  split; [exact H|]. split; [reflexivity|].
  destruct (@asynchronous_resolver nat Async.env (Async.unit_ "a") Async.st0 _
              Async.pending_definition H eq_refl Hnone) as (Hm & Ho & _).
  split; [exact Hm|]. rewrite Ho. reflexivity.
Defined.

(* ================================================================== *)
(** ** From the foreign calls to [_exec], and back *)

Section CarryingFacts.

Context {W : Type} (E : Env W).

Lemma unwrap_default_unwrapped (r : value) (st : mstate W) :
  truthy r = true -> unwrap_default r st = (Ok (unwrapped r), st).
Proof.
  intros Ht.
  destruct (truthy_get_prop r "up" Ht) as [u Hu].
  destruct (truthy_get_prop r "down" Ht) as [d Hd].
  destruct (truthy_get_prop r "default" Ht) as [df Hdf].
  unfold unwrap_default, unwrapped, bind, of_result, ret. rewrite Hu, Hd, Hdf.
  destruct (truthy u); simpl; [reflexivity|].
  destruct (truthy d); simpl; [reflexivity|].
  destruct (truthy df); reflexivity.
Qed.

Lemma loads_sound (m : Migration) (w w' : W) (t : list event) (r : value) :
  loads E m w r w' ->
  exists migs cr,
    get_prop (options m) "migrations" = Ok migs
    /\ get_prop migs "customResolver" = Ok cr
    /\ load_definition E m {| world := w; trace := t |}
       = (Ok r, {| world := w'; trace := t ++ [load_event m cr] |}).
Proof.
  intros (migs & cr & Hm & Hc & Hcase). exists migs, cr.
  split; [exact Hm|]. split; [exact Hc|].
  unfold load_definition, bind, of_result. rewrite Hm, Hc. unfold load_event.
  destruct Hcase as [(id & ps & -> & Hi)|[Hnf Hr]].
  - simpl. unfold foreign. simpl. rewrite Hi. reflexivity.
  - rewrite Hnf. simpl. unfold foreign. simpl. rewrite Hr. reflexivity.
Qed.

Lemma settles_sound (v d : value) (w w' : W) (t : list event) :
  settles E v w d w' ->
  await_value E v {| world := w; trace := t |} = (Ok d, {| world := w'; trace := t |}).
Proof.
  unfold await_value. intros [(Hth & -> & ->)|(Hth & Hs)]; rewrite Hth.
  - reflexivity.
  - unfold foreign. simpl. rewrite Hs. reflexivity.
Qed.

(** The steps before the call of the action, as [_exec] takes them. *)
Lemma prepares_sound (m : Migration) (meth : method) (args : list value)
    (w w3 : W) (t : list event) (d wf : value) :
  prepares E m meth w d wf w3 ->
  exists migs cr w2,
    get_prop (options m) "migrations" = Ok migs
    /\ get_prop migs "customResolver" = Ok cr
    /\ obtain E m {| world := w; trace := t |}
       = (Ok d, {| world := w2; trace := t ++ [load_event m cr] |})
    /\ call_wrapped E m meth args d {| world := w2; trace := t ++ [load_event m cr] |}
       = fn_apply E m meth wf d args
           {| world := w3;
              trace := t ++ [load_event m cr; EvWrap (file m) meth] |}.
Proof.
  intros (r0 & w1 & w2 & f & migs & wid & wps
          & Hl & Ht & Hs & Hf & Htf & Hm & Hw & Hi).
  destruct (loads_sound t Hl) as (migs' & cr & Hm' & Hc & Hload).
  exists migs', cr, w2. split; [exact Hm'|]. split; [exact Hc|]. split.
  - assert (Hmig : Migration_migration E m {| world := w; trace := t |}
                   = (Ok (unwrapped r0),
                      {| world := w1; trace := t ++ [load_event m cr] |})).
    { unfold Migration_migration. rewrite (bind_ok _ Hload), Ht.
      now apply unwrap_default_unwrapped. }
    unfold obtain. rewrite (bind_ok _ Hmig).
    exact (settles_sound _ Hs).
  - rewrite (@call_wrapped_user _ E m meth args d f migs wid wps _ Hf Htf Hm Hw).
    cbn [world trace]. rewrite Hi, <- app_assoc. reflexivity.
Qed.

Lemma applies_sound (m : Migration) (meth : method) (wf this : value)
    (args : list value) (w w' : W) (t : list event) (out : result error value) :
  applies E wf this args w out w' ->
  fn_apply E m meth wf this args {| world := w; trace := t |}
  = (out, {| world := w'; trace := t ++ [EvAction (file m) meth] |}).
Proof.
  intros (c & ps & -> & [(Hap & id & -> & Hi)|(id & xps & Hap & Hi)]).
  - rewrite (@fn_apply_plain _ E m meth id ps this args _ Hap).
    cbn [world trace]. rewrite Hi. reflexivity.
  - rewrite (@fn_apply_own _ E m meth c ps xps id this args _ Hap).
    cbn [world trace]. rewrite Hi. reflexivity.
Qed.

(** A unit that carries out a method makes [_exec] succeed, in the world
    in which the promise of the action was fulfilled. *)
Lemma performs_sound (m : Migration) (meth : method) (args : list value)
    (w w' : W) (t : list event) :
  performs E m meth args w w' ->
  exists migs cr,
    get_prop (options m) "migrations" = Ok migs
    /\ get_prop migs "customResolver" = Ok cr
    /\ Migration_exec E m meth args {| world := w; trace := t |}
       = (Ok tt,
          {| world := w';
             trace := t ++ [load_event m cr; EvWrap (file m) meth;
                            EvAction (file m) meth] |}).
Proof.
  intros (d & wf & w3 & r & w4 & v & Hp & Ha & Hth & Hs).
  destruct (prepares_sound args t Hp) as (migs & cr & w2 & Hm & Hc & Ho & Hcw).
  exists migs, cr. split; [exact Hm|]. split; [exact Hc|].
  rewrite (applies_sound m meth _ Ha) in Hcw.
  unfold Migration_exec. rewrite (bind_ok _ Ho).
  rewrite (@exec_on_awaits _ E _ _ _ _ _ _ _ Hcw Hth). cbn [world trace].
  rewrite Hs, <- app_assoc. reflexivity.
Qed.

(** An action that throws, or whose promise is rejected, makes [_exec]
    throw the same error, in the world in which that happened. *)
Lemma action_throws_sound (m : Migration) (meth : method) (args : list value)
    (w w' : W) (t : list event) (e : error) :
  action_throws E m meth args w e w' ->
  exists migs cr,
    get_prop (options m) "migrations" = Ok migs
    /\ get_prop migs "customResolver" = Ok cr
    /\ Migration_exec E m meth args {| world := w; trace := t |}
       = (Throw e,
          {| world := w';
             trace := t ++ [load_event m cr; EvWrap (file m) meth;
                            EvAction (file m) meth] |}).
Proof.
  intros (d & wf & w3 & Hp & Hcase).
  destruct (prepares_sound args t Hp) as (migs & cr & w2 & Hm & Hc & Ho & Hcw).
  exists migs, cr. split; [exact Hm|]. split; [exact Hc|].
  unfold Migration_exec. rewrite (bind_ok _ Ho).
  destruct Hcase as [Ha|(r & w4 & Ha & Hth & Hs)];
    rewrite (applies_sound m meth _ Ha) in Hcw.
  - unfold exec_on. rewrite (bind_throw _ Hcw), <- app_assoc. reflexivity.
  - rewrite (@exec_on_awaits _ E _ _ _ _ _ _ _ Hcw Hth). cbn [world trace].
    rewrite Hs, <- app_assoc. reflexivity.
Qed.

End CarryingFacts.

Section CarryingBack.

Context {W : Type} (E : Env W).

Lemma exec_ok_inv (m : Migration) (meth : method) (args : list value)
    (st st' : mstate W) :
  Migration_exec E m meth args st = (Ok tt, st') ->
  exists d st1 r st2 v,
    obtain E m st = (Ok d, st1)
    /\ call_wrapped E m meth args d st1 = (Ok r, st2)
    /\ thenable r = true
    /\ settle E r (world st2) = (Ok v, world st').
Proof.
  intros H. unfold Migration_exec in H.
  destruct (bind_inv H) as [(d & st1 & H1 & H2)|(e & _ & He)]; [|discriminate].
  unfold exec_on in H2.
  destruct (bind_inv H2) as [(r & st2 & H3 & H4)|(e & _ & He)]; [|discriminate].
  unfold bind at 1 in H4. rewrite not_a_promise_thenable in H4.
  destruct (thenable r) eqn:Hth; simpl in H4; [|discriminate].
  destruct (bind_inv H4) as [(v & st3 & H5 & H6)|(e & _ & He)]; [|discriminate].
  inversion H6; subst st3.
  unfold await_value in H5. rewrite Hth in H5. unfold foreign in H5.
  destruct (settle E r (world st2)) as [[v'|e] w] eqn:Hs; [|discriminate].
  inversion H5; subst. exists d, st1, r, st2, v. auto.
Qed.

Lemma load_definition_inv (m : Migration) (st st1 : mstate W) (r : value) :
  load_definition E m st = (Ok r, st1) ->
  loads E m (world st) r (world st1) \/ exists s, r = VStr s.
Proof.
  intros H. unfold load_definition in H.
  destruct (bind_inv H) as [(migs & st2 & H1 & H2)|(e & _ & He)]; [|discriminate].
  apply of_result_inv in H1. destruct H1 as [Hm ->]. symmetry in Hm.
  destruct (bind_inv H2) as [(cr & st3 & H3 & H4)|(e & _ & He)]; [|discriminate].
  apply of_result_inv in H3. destruct H3 as [Hc ->]. symmetry in Hc.
  destruct (is_function cr) eqn:Hf.
  - destruct (bind_inv H4) as [(u & st4 & H5 & H6)|(e & _ & He)]; [|discriminate].
    inversion H5; subst st4. clear H5.
    destruct cr as [| | | | | |[[|id]|] ps]; try discriminate.
    + right. simpl in H6. inversion H6. eauto.
    + left. exists migs, (VObj (Some (UserFn id)) ps).
      split; [auto|]. split; [auto|]. left. exists id, ps. split; [reflexivity|].
      unfold call_value, foreign in H6. simpl in H6.
      destruct (invoke E id migs [VStr (path m)] (world st)) as [x w].
      inversion H6; subst. reflexivity.
  - destruct (bind_inv H4) as [(u & st4 & H5 & H6)|(e & _ & He)]; [|discriminate].
    inversion H5; subst st4. clear H5.
    left. exists migs, cr. split; [auto|]. split; [auto|]. right.
    split; [exact Hf|].
    unfold foreign in H6. simpl in H6.
    destruct (require_module E (path m) (world st)) as [x w].
    inversion H6; subst. reflexivity.
Qed.

Lemma obtain_ok_inv (m : Migration) (st st1 : mstate W) (d : value) :
  obtain E m st = (Ok d, st1) ->
  (exists r0 w1,
      loads E m (world st) r0 w1
      /\ truthy r0 = true
      /\ settles E (unwrapped r0) w1 d (world st1))
  \/ exists s, d = VStr s.
Proof.
  intros H. unfold obtain in H.
  destruct (bind_inv H) as [(v & st2 & H1 & H2)|(e & _ & He)]; [|discriminate].
  unfold Migration_migration in H1.
  destruct (bind_inv H1) as [(r0 & st3 & H3 & H4)|(e & _ & He)]; [|discriminate].
  destruct (truthy r0) eqn:Ht; [|discriminate].
  rewrite (@unwrap_default_unwrapped W r0 st3 Ht) in H4. inversion H4; subst v st3.
  assert (Hset : settles E (unwrapped r0) (world st2) d (world st1)).
  { unfold await_value in H2. unfold settles.
    destruct (thenable (unwrapped r0)).
    - right. split; [reflexivity|]. unfold foreign in H2.
      destruct (settle E (unwrapped r0) (world st2)) as [x w].
      inversion H2; subst. reflexivity.
    - left. inversion H2; subst. auto. }
  destruct (@load_definition_inv _ _ _ _ H3) as [Hl|[s ->]].
  - left. exists r0, (world st2). auto.
  - right. destruct Hset as [(_ & -> & _)|(Hth & _)]; [|discriminate].
    exists s. reflexivity.
Qed.

Lemma fn_apply_ok_inv (m : Migration) (meth : method) (wf d f : value)
    (args : list value) (st st' : mstate W) (r : value) :
  get_prop d (method_name meth) = Ok f ->
  truthy f = true ->
  fn_apply E m meth wf d args st = (Ok r, st') ->
  thenable r = true ->
  applies E wf d args (world st) (Ok r) (world st').
Proof.
  intros Hf Ht H Hth. unfold fn_apply in H.
  destruct wf as [| | | | | |c ps]; try discriminate.
  exists c, ps. split; [reflexivity|].
  destruct (lookup "apply" ps) as [ap|] eqn:Hap.
  - destruct (is_function ap) eqn:Hfn; [|discriminate].
    destruct (bind_inv H) as [(u & st1 & H1 & H2)|(e & _ & He)]; [|discriminate].
    inversion H1; subst st1. clear H1.
    destruct ap as [| | | | | |[[|id]|] xps]; try discriminate.
    + simpl in H2. destruct d; try discriminate.
      simpl in Hf. inversion Hf; subst f. discriminate.
    + right. exists id, xps. split; [reflexivity|].
      unfold call_value, foreign in H2. simpl in H2.
      destruct (invoke E id (VObj c ps) [d; js_array args] (world st)) as [x w].
      inversion H2; subst. reflexivity.
  - destruct c as [[|id]|]; try discriminate.
    + destruct (bind_inv H) as [(u & st1 & H1 & H2)|(e & _ & He)]; [|discriminate].
      simpl in H2. destruct args as [|[| | | | |s|] args']; try discriminate.
      inversion H2; subst. discriminate.
    + left. split; [reflexivity|]. exists id. split; [reflexivity|].
      destruct (bind_inv H) as [(u & st1 & H1 & H2)|(e & _ & He)]; [|discriminate].
      inversion H1; subst st1. clear H1.
      unfold call_value, foreign in H2. simpl in H2.
      destruct (invoke E id d args (world st)) as [x w].
      inversion H2; subst. reflexivity.
Qed.

Lemma call_wrapped_ok_inv (m : Migration) (meth : method) (args : list value)
    (d : value) (st1 st2 : mstate W) (r : value) :
  call_wrapped E m meth args d st1 = (Ok r, st2) ->
  thenable r = true ->
  exists f migs wid wps wf w3,
    get_prop d (method_name meth) = Ok f
    /\ truthy f = true
    /\ get_prop (options m) "migrations" = Ok migs
    /\ get_prop migs "wrap" = Ok (VObj (Some (UserFn wid)) wps)
    /\ invoke E wid migs [f] (world st1) = (Ok wf, w3)
    /\ applies E wf d args w3 (Ok r) (world st2).
Proof.
  intros H Hth. unfold call_wrapped in H.
  destruct (bind_inv H) as [(f & sa & H1 & H2)|(e & _ & He)]; [|discriminate].
  apply of_result_inv in H1. destruct H1 as [Hf ->]. symmetry in Hf.
  destruct (truthy f) eqn:Ht; [|discriminate]. simpl in H2.
  destruct (bind_inv H2) as [(migs & sb & H3 & H4)|(e & _ & He)]; [|discriminate].
  apply of_result_inv in H3. destruct H3 as [Hm ->]. symmetry in Hm.
  destruct (bind_inv H4) as [(wrap & sc & H5 & H6)|(e & _ & He)]; [|discriminate].
  apply of_result_inv in H5. destruct H5 as [Hw ->]. symmetry in Hw.
  destruct (bind_inv H6) as [(u & sd & H7 & H8)|(e & _ & He)]; [|discriminate].
  inversion H7; subst sd. clear H7.
  destruct (bind_inv H8) as [(wf & se & H9 & H10)|(e & _ & He)]; [|discriminate].
  destruct wrap as [| | | | | |[[|wid]|] wps]; try discriminate.
  - simpl in H9. destruct f; discriminate.
  - unfold call_value, foreign in H9. simpl in H9.
    destruct (invoke E wid migs [f] (world st1)) as [x w3] eqn:Hi.
    inversion H9; subst x se. clear H9.
    exists f, migs, wid, wps, wf, w3.
    repeat (split; [auto; fail|]).
    exact (@fn_apply_ok_inv m meth wf d f args _ _ r Hf Ht H10 Hth).
Qed.

(** Every success of [_exec] is one in which the unit carried out the
    method. *)
Lemma performs_complete (m : Migration) (meth : method) (args : list value)
    (st st' : mstate W) :
  Migration_exec E m meth args st = (Ok tt, st') ->
  performs E m meth args (world st) (world st').
Proof.
  intros H.
  destruct (@exec_ok_inv _ _ _ _ _ H) as (d & st1 & r & st2 & v & Ho & Hc & Hth & Hs).
  destruct (@call_wrapped_ok_inv _ _ _ _ _ _ _ Hc Hth)
    as (f & migs & wid & wps & wf & w3 & Hf & Ht & Hm & Hw & Hi & Ha).
  destruct (@obtain_ok_inv _ _ _ _ Ho) as [(r0 & w1 & Hl & Htr & Hset)|[s ->]].
  - exists d, wf, w3, r, (world st2), v.
    split; [|auto].
    exists r0, w1, (world st1), f, migs, wid, wps. repeat split; auto.
  - simpl in Hf. inversion Hf; subst f. discriminate.
Qed.

End CarryingBack.

(* ================================================================== *)
(** ** The execution loops *)

Lemma actions_of_run (t : list event) (m : Migration) (cr : value) (meth : method) :
  actions (t ++ [load_event m cr; EvWrap (file m) meth; EvAction (file m) meth])
  = actions t ++ [(file m, meth)].
Proof.
  rewrite actions_app. f_equal. unfold load_event.
  destruct (is_function cr); reflexivity.
Qed.

Lemma actions_after_log (t : list event) (n : string) :
  actions (t ++ [EvLog n]) = actions t.
Proof. rewrite actions_app. simpl. apply app_nil_r. Qed.

Lemma actions_after_unlog (t : list event) (n : string) :
  actions (t ++ [EvUnlog n]) = actions t.
Proof. rewrite actions_app. simpl. apply app_nil_r. Qed.

Section EngineFacts.

Context {W : Type} (E : Env W).

(** The loop succeeds along a chain of units that carry out [up]. *)
Lemma run_up_chain (todo : list Migration) :
  forall done u w',
    up_chain E todo (world (mig u)) w' ->
    exists t',
      run_up E todo done u
      = (Ok (done ++ todo),
         {| mig := {| world := w'; trace := t' |};
            executed_names := executed_names u ++ names todo |})
      /\ actions t' = actions (trace (mig u)) ++ map up_action todo.
Proof.
  induction todo as [|m todo IH]; intros done [[w t] rec] w' Hc;
    inversion Hc; subst; simpl in *.
  - exists t. now rewrite !app_nil_r.
  - match goal with
    | Hp : performs _ _ _ _ _ _, Hw : write_log _ _ _ = (_, ?wx),
      Hr : up_chain _ _ _ _ |- _ =>
        destruct (performs_sound t Hp) as (migs & cr & _ & _ & Hexec);
        destruct (IH (done ++ [m])
                    {| mig := {| world := wx;
                                 trace := (t ++ [load_event m cr;
                                                 EvWrap (file m) Up;
                                                 EvAction (file m) Up])
                                          ++ [EvLog (file m)] |};
                       executed_names := logMigration (file m) rec |}
                    w' Hr) as (t' & Hrun & Hact);
        unfold Migration_up; rewrite Hexec; cbn [world trace]; rewrite Hw
    end.
    exists t'. split.
    + rewrite Hrun. simpl. unfold logMigration. now rewrite <- !app_assoc.
    + rewrite Hact. simpl. rewrite actions_after_log, actions_of_run.
      now rewrite <- app_assoc.
Qed.

(** What a loop that succeeded has done. *)
Lemma run_up_ok (todo : list Migration) :
  forall done u res u',
    run_up E todo done u = (Ok res, u') ->
    res = done ++ todo
    /\ executed_names u' = executed_names u ++ names todo
    /\ actions (trace (mig u'))
       = actions (trace (mig u)) ++ map up_action todo
    /\ up_chain E todo (world (mig u)) (world (mig u')).
Proof.
  induction todo as [|m todo IH]; intros done u res u' H; simpl in H.
  - inversion H; subst. simpl. rewrite !app_nil_r.
    repeat split. constructor.
  - destruct (Migration_up E m [] (mig u)) as [[[]|e] st] eqn:Hm; [|discriminate].
    destruct (write_log E (file m) (world st)) as [[[]|e] w] eqn:Hw; [|discriminate].
    apply IH in H. destruct H as (-> & Hrec & Hact & Hchain).
    simpl in Hrec, Hact, Hchain.
    pose proof (once_exec E m Up [] _ Hm) as Hone. simpl in Hone.
    repeat split.
    + now rewrite <- app_assoc.
    + rewrite Hrec. unfold logMigration. now rewrite <- app_assoc.
    + rewrite Hact, actions_after_log, Hone. now rewrite <- app_assoc.
    + exact (@up_chain_cons W E m todo _ _ _ _
               (@performs_complete W E m Up [] _ _ Hm) Hw Hchain).
Qed.

(** The loop stops at the unit whose action throws. *)
Lemma run_up_stops (pre : list Migration) (m : Migration) (post : list Migration)
    (e : error) (w2 : W) :
  forall done u w1,
    up_chain E pre (world (mig u)) w1 ->
    action_throws E m Up [] w1 e w2 ->
    exists t',
      run_up E (pre ++ m :: post) done u
      = (Throw (ExecutionError (file m) (names (done ++ pre)) e),
         {| mig := {| world := w2; trace := t' |};
            executed_names := executed_names u ++ names pre |})
      /\ actions t'
         = actions (trace (mig u)) ++ map up_action pre ++ [up_action m].
Proof.
  induction pre as [|x pre IH]; intros done [[w t] rec] w1 Hc Hthrow;
    inversion Hc; subst; simpl in *.
  - destruct (action_throws_sound t Hthrow) as (migs & cr & _ & _ & Hexec).
    unfold Migration_up. rewrite Hexec.
    eexists. split; [rewrite !app_nil_r; reflexivity|].
    apply actions_of_run.
  - match goal with
    | Hp : performs _ _ _ _ _ _, Hw : write_log _ _ _ = (_, ?wx),
      Hr : up_chain _ _ _ _ |- _ =>
        destruct (performs_sound t Hp) as (migs & cr & _ & _ & Hexec);
        destruct (IH (done ++ [x])
                    {| mig := {| world := wx;
                                 trace := (t ++ [load_event x cr;
                                                 EvWrap (file x) Up;
                                                 EvAction (file x) Up])
                                          ++ [EvLog (file x)] |};
                       executed_names := logMigration (file x) rec |}
                    w1 Hr Hthrow) as (t' & Hrun & Hact);
        unfold Migration_up; rewrite Hexec; cbn [world trace]; rewrite Hw
    end.
    exists t'. split.
    + rewrite Hrun. simpl. unfold logMigration. now rewrite <- !app_assoc.
    + rewrite Hact. simpl. rewrite actions_after_log, actions_of_run.
      now rewrite <- app_assoc.
Qed.

(** A record write that fails stops the loop: the error names the unit,
    the record is left as it was, and no later unit is run. *)
Lemma write_failure_stops_up (m : Migration) (rest done : list Migration)
    (u : ustate W) (st : mstate W) (e : error) (w : W) :
  Migration_up E m [] (mig u) = (Ok tt, st) ->
  write_log E (file m) (world st) = (Throw e, w) ->
  run_up E (m :: rest) done u
  = (Throw (StorageError (file m) (names done) e),
     {| mig := {| world := w; trace := trace st |};
        executed_names := executed_names u |}).
Proof. intros Hm Hw. simpl. rewrite Hm, Hw. reflexivity. Qed.

Lemma write_failure_stops_down (m : Migration) (rest done : list Migration)
    (u : ustate W) (st : mstate W) (e : error) (w : W) :
  Migration_down E m [] (mig u) = (Ok tt, st) ->
  write_unlog E (file m) (world st) = (Throw e, w) ->
  run_down E (m :: rest) done u
  = (Throw (StorageError (file m) (names done) e),
     {| mig := {| world := w; trace := trace st |};
        executed_names := executed_names u |}).
Proof. intros Hm Hw. simpl. rewrite Hm, Hw. reflexivity. Qed.

End EngineFacts.

Lemma NoDup_app_disjoint (A : Type) (l1 l2 : list A) (a : A) :
  NoDup (l1 ++ l2) -> In a l1 -> ~ In a l2.
Proof.
  induction l1 as [|x l1 IH]; simpl; intros Hnd Hin; [contradiction|].
  inversion Hnd as [|? ? Hx Hnd']; subst.
  destruct Hin as [->|Hin].
  - intros H2. apply Hx. apply in_or_app. now right.
  - now apply IH.
Qed.

(* ================================================================== *)
(** ** The engine's guarantees *)

Section EngineGuarantees.

Context {W : Type} (E : Env W).

(** C1.  From an empty Execution Record, [up()] succeeds along every run
    in which the units of the sequence, one after the other and in
    sequence order, carry out their [up] action and have their name
    written to the record; and whenever [up()] has succeeded, that is what
    happened: each unit's action was called once, on the unit's
    definition, in sequence order and in the world its predecessors left,
    the call returns the whole sequence, and [executed()] then answers the
    sequence in order. *)
Theorem up_executes_all (S : list Migration) (u : ustate W) :
  executed_names u = [] ->
  (forall w',
      up_chain E S (world (mig u)) w' ->
      exists u', Umzug_up E S u = (Ok S, u') /\ world (mig u') = w')
  /\ (forall res u',
        Umzug_up E S u = (Ok res, u') ->
        res = S
        /\ up_chain E S (world (mig u)) (world (mig u'))
        /\ actions (trace (mig u')) = actions (trace (mig u)) ++ map up_action S
        /\ executed_names u' = names S
        /\ Umzug_executed S (executed_names u') = S).
Proof.
  intros Hempty. unfold Umzug_up.
  rewrite Hempty, pending_of_empty_record. split.
  - intros w' Hc.
    destruct (@run_up_chain W E S [] u w' Hc) as (t' & Hrun & _).
    eexists. split; [exact Hrun|reflexivity].
  - intros res u' Hrun.
    destruct (@run_up_ok W E S [] u res u' Hrun) as (-> & Hrec & Hact & Hchain).
    rewrite Hempty in Hrec. simpl in Hrec.
    repeat split; auto.
    rewrite Hrec. apply executed_of_own_names.
Qed.

(** C2.  From an empty Execution Record and with distinct names, if the
    units [pre] carry out their [up] action one after the other and the
    action of the next unit [m] then throws [e], or returns a promise that
    is rejected with [e], then [up()] throws an error that names [m] and
    carries [e]; exactly the units of [pre] are recorded, [m] is not; the
    actions invoked are those of [pre] and of [m], in order, so none of a
    later unit; and the run ends in the world in which the action
    failed. *)
Theorem up_stops_at_failing_unit
    (pre : list Migration) (m : Migration) (post : list Migration)
    (u : ustate W) (w1 w2 : W) (e : error) :
  executed_names u = [] ->
  NoDup (names (pre ++ m :: post)) ->
  up_chain E pre (world (mig u)) w1 ->
  action_throws E m Up [] w1 e w2 ->
  exists t',
    Umzug_up E (pre ++ m :: post) u
    = (Throw (ExecutionError (file m) (names pre) e),
       {| mig := {| world := w2; trace := t' |}; executed_names := names pre |})
    /\ Umzug_executed (pre ++ m :: post) (names pre) = pre
    /\ ~ In (file m) (names pre)
    /\ actions t' = actions (trace (mig u)) ++ map up_action pre ++ [up_action m]
    /\ (forall x, In x post ->
          ~ In (up_action x) (map up_action pre ++ [up_action m])).
Proof.
  intros Hempty Hnd Hpre Hm. unfold Umzug_up.
  rewrite Hempty, pending_of_empty_record.
  destruct (@run_up_stops W E pre m post e w2 [] u w1 Hpre Hm)
    as (t' & Hrun & Hact).
  rewrite Hempty in Hrun. simpl in Hrun.
  unfold names in Hnd. rewrite map_app in Hnd. simpl in Hnd.
  assert (Hout : forall x, In x (m :: post) -> ~ In (file x) (names pre)).
  { intros x Hx Hin.
    apply (NoDup_app_disjoint _ _ (file x) Hnd Hin).
    change (In (file x) (map file (m :: post))). now apply in_map. }
  exists t'. split; [exact Hrun|]. split; [|split; [|split]].
  - unfold Umzug_executed. rewrite filter_app.
    rewrite filter_all, filter_none; [apply app_nil_r| |].
    + intros x Hx. destruct (recorded (file x) (names pre)) eqn:Hr; [|reflexivity].
      apply recorded_In in Hr. now elim (Hout x Hx).
    + intros x Hx. apply recorded_In. unfold names. now apply in_map.
  - apply Hout. now left.
  - exact Hact.
  - intros x Hx Hin. apply in_app_or in Hin. destruct Hin as [Hin|Hin].
    + apply in_map_iff in Hin. destruct Hin as (y & Hy & Hiny).
      unfold up_action in Hy. inversion Hy as [Hfile].
      apply (Hout x (or_intror Hx)). rewrite <- Hfile.
      unfold names. now apply in_map.
    + destruct Hin as [Heq|[]]. unfold up_action in Heq. inversion Heq as [Hfile].
      apply NoDup_app_remove_l in Hnd. inversion Hnd as [|? ? Hnot _]; subst.
      apply Hnot. rewrite Hfile. now apply in_map.
Qed.

(** C3.  After an [up()] that succeeded, nothing is pending and a second
    [up()] returns at once: the state, and with it the trace of every
    call, is untouched. *)
Theorem up_twice_is_noop (S done : list Migration) (u u1 : ustate W) :
  Umzug_up E S u = (Ok done, u1) ->
  Umzug_pending S (executed_names u1) = []
  /\ Umzug_up E S u1 = (Ok [], u1).
Proof.
  intros Hrun. unfold Umzug_up in Hrun.
  destruct (@run_up_ok _ E _ [] u _ _ Hrun) as (_ & Hrec & _).
  assert (Hnone : Umzug_pending S (executed_names u1) = []).
  { unfold Umzug_pending at 1. apply filter_none. intros m Hm.
    apply negb_false_iff, recorded_In. rewrite Hrec. apply in_or_app.
    destruct (recorded (file m) (executed_names u)) eqn:Hr.
    - left. now apply recorded_In.
    - right. unfold names. apply in_map. unfold Umzug_pending.
      apply filter_In. split; [exact Hm|]. now rewrite Hr. }
  split; [exact Hnone|].
  unfold Umzug_up. rewrite Hnone. reflexivity.
Qed.

(** C4.  When the name recorded last belongs to the unit [m], [m] carries
    out its [down] action and the removal of the name is written, [down()]
    returns [m] alone: that one action was called, on the definition of
    [m], and no other; the run ends in the world that the action and the
    write left; and that name, and only that name, is taken out of the
    Execution Record. *)
Theorem down_undoes_last (S : list Migration) (u : ustate W)
    (earlier : list string) (n : string) (m : Migration) (w1 w2 : W) :
  executed_names u = earlier ++ [n] ->
  find_unit S n = Some m ->
  performs E m Down [] (world (mig u)) w1 ->
  write_unlog E n w1 = (Ok tt, w2) ->
  exists t',
    Umzug_down E S u
    = (Ok [m],
       {| mig := {| world := w2; trace := t' |};
          executed_names := unlogMigration n (executed_names u) |})
    /\ file m = n
    /\ actions t' = actions (trace (mig u)) ++ [(n, Down)]
    /\ ~ In n (unlogMigration n (executed_names u))
    /\ (forall x, x <> n ->
          In x (unlogMigration n (executed_names u)) <-> In x (executed_names u))
    /\ (~ In n earlier -> unlogMigration n (executed_names u) = earlier).
Proof.
  intros Hrec Hfind Hp Hw.
  destruct (@find_unit_name _ _ _ Hfind) as [_ Hname].
  destruct u as [[w t] rec]. simpl in *.
  destruct (performs_sound t Hp) as (migs & cr & _ & _ & Hexec).
  exists ((t ++ [load_event m cr; EvWrap (file m) Down; EvAction (file m) Down])
          ++ [EvUnlog (file m)]).
  split; [|split; [exact Hname|split; [|split; [|split]]]].
  - unfold Umzug_down, default_down_selection. simpl.
    rewrite Hrec, rev_app_distr. simpl. rewrite Hfind. simpl.
    unfold Migration_down. rewrite Hexec. cbn [world trace].
    rewrite Hname, Hw. reflexivity.
  - rewrite actions_after_unlog, actions_of_run, Hname. reflexivity.
  - intros H. apply unlog_In in H. now destruct H.
  - intros x Hx. rewrite unlog_In. tauto.
  - intros Hnot. rewrite Hrec. now apply unlog_last.
Qed.

End EngineGuarantees.

(* ================================================================== *)
(** ** The engine's guarantees at concrete inputs *)

(** In the sample world a unit whose resolver answers the well-behaved
    definition carries out either method in four foreign calls. *)
Lemma sample_performs (name : string) (meth : method) (w : nat) :
  Sample.sample_invoke 0
    (VObj None [("nameFormatter", default_nameFormatter);
                ("wrap", VObj (Some (UserFn 1)) []);
                ("customResolver", VObj (Some (UserFn 0)) [])])
    [VStr ("/w/" ++ name)] w
  = (Ok Sample.good_definition, S w) ->
  performs Sample.env (Sample.unit_ name) meth [] w (S (S (S (S w)))).
Proof.
  intros Hres.
  exists Sample.good_definition,
         (VObj (Some (UserFn (match meth with Up => 10 | Down => 11 end))) []),
         (S (S w)), Sample.promise, (S (S (S w))), VUndefined.
  split; [|split; [|split; [reflexivity|reflexivity]]].
  - exists Sample.good_definition, (S w), (S w),
           (VObj (Some (UserFn (match meth with Up => 10 | Down => 11 end))) []),
           (VObj None [("nameFormatter", default_nameFormatter);
                       ("wrap", VObj (Some (UserFn 1)) []);
                       ("customResolver", VObj (Some (UserFn 0)) [])]),
           1, [].
    split.
    { exists (VObj None [("nameFormatter", default_nameFormatter);
                         ("wrap", VObj (Some (UserFn 1)) []);
                         ("customResolver", VObj (Some (UserFn 0)) [])]),
             (VObj (Some (UserFn 0)) []).
      split; [reflexivity|]. split; [reflexivity|].
      left. exists 0, []. split; [reflexivity|exact Hres]. }
    split; [reflexivity|].
    split; [left; repeat split|].
    split; [destruct meth; reflexivity|].
    split; [reflexivity|]. split; [reflexivity|]. split; reflexivity.
  - exists (Some (UserFn (match meth with Up => 10 | Down => 11 end))), [].
    split; [reflexivity|]. left. split; [reflexivity|].
    exists (match meth with Up => 10 | Down => 11 end).
    split; [reflexivity|]. destruct meth; reflexivity.
Defined.

Lemma sample_chain : up_chain Sample.env Sample.two_units 0 8.
Proof.
  apply (@up_chain_cons nat Sample.env (Sample.unit_ "a") [Sample.unit_ "b"] 0 4 4 8).
  - exact (@sample_performs "a" Up 0 eq_refl).
  - reflexivity.
  - apply (@up_chain_cons nat Sample.env (Sample.unit_ "b") [] 4 8 8 8).
    + exact (@sample_performs "b" Up 4 eq_refl).
    + reflexivity.
    + constructor.
Defined.

(** The action of the unit [bad] throws, in the third foreign call. *)
Lemma sample_bad_throws (w : nat) :
  action_throws Sample.env (Sample.unit_ "bad") Up [] w Sample.boom (S (S (S w))).
Proof.
  exists Sample.failing_definition, (VObj (Some (UserFn 13)) []), (S (S w)).
  split.
  - exists Sample.failing_definition, (S w), (S w), (VObj (Some (UserFn 13)) []),
           (VObj None [("nameFormatter", default_nameFormatter);
                       ("wrap", VObj (Some (UserFn 1)) []);
                       ("customResolver", VObj (Some (UserFn 0)) [])]),
           1, [].
    split.
    { exists (VObj None [("nameFormatter", default_nameFormatter);
                         ("wrap", VObj (Some (UserFn 1)) []);
                         ("customResolver", VObj (Some (UserFn 0)) [])]),
             (VObj (Some (UserFn 0)) []).
      split; [reflexivity|]. split; [reflexivity|].
      left. exists 0, []. split; reflexivity. }
    split; [reflexivity|].
    split; [left; repeat split|].
    split; [reflexivity|].
    split; [reflexivity|]. split; [reflexivity|]. split; reflexivity.
  - left. exists (Some (UserFn 13)), [].
    split; [reflexivity|]. left. split; [reflexivity|].
    exists 13. split; reflexivity.
Defined.

Lemma up_executes_all_witness :
  executed_names Sample.u0 = []
  /\ up_chain Sample.env Sample.two_units (world (mig Sample.u0)) 8
  /\ (exists u',
        Umzug_up Sample.env Sample.two_units Sample.u0 = (Ok Sample.two_units, u')
        /\ world (mig u') = 8)
  /\ Umzug_up Sample.env Sample.two_units Sample.u0
     = (Ok Sample.two_units, Sample.after_up)
  /\ actions (trace (mig Sample.after_up)) = [("a", Up); ("b", Up)]
  /\ executed_names Sample.after_up = ["a"; "b"]
  /\ Umzug_executed Sample.two_units (executed_names Sample.after_up)
     = Sample.two_units.
Proof.
  assert (Hrun : Umzug_up Sample.env Sample.two_units Sample.u0
                 = (Ok Sample.two_units, Sample.after_up))
    by reflexivity.
  destruct (@up_executes_all nat Sample.env Sample.two_units Sample.u0 eq_refl)
    as [Hforth Hback].
  destruct (Hback _ _ Hrun) as (_ & _ & Hact & Hrec & Hexe).
  split; [reflexivity|]. split; [exact sample_chain|].
  split; [exact (Hforth 8 sample_chain)|].
  split; [exact Hrun|]. split; [exact Hact|]. split; [exact Hrec|exact Hexe].
Defined.

Lemma up_stops_at_failing_unit_witness :
  executed_names Sample.u0 = []
  /\ NoDup (names ([Sample.unit_ "a"] ++ Sample.unit_ "bad" :: [Sample.unit_ "c"]))
  /\ up_chain Sample.env [Sample.unit_ "a"] (world (mig Sample.u0)) 4
  /\ action_throws Sample.env (Sample.unit_ "bad") Up [] 4 Sample.boom 7
  /\ exists t',
       Umzug_up Sample.env
         ([Sample.unit_ "a"] ++ Sample.unit_ "bad" :: [Sample.unit_ "c"]) Sample.u0
       = (Throw (ExecutionError "bad" ["a"] Sample.boom),
          {| mig := {| world := 7; trace := t' |}; executed_names := ["a"] |})
       /\ Umzug_executed
            ([Sample.unit_ "a"] ++ Sample.unit_ "bad" :: [Sample.unit_ "c"]) ["a"]
          = [Sample.unit_ "a"]
       /\ ~ In "bad" ["a"]
       /\ actions t' = [("a", Up); ("bad", Up)]
       /\ (forall x, In x [Sample.unit_ "c"] ->
             ~ In (up_action x) [("a", Up); ("bad", Up)]).
Proof.
  assert (Hnd : NoDup (names ([Sample.unit_ "a"] ++ Sample.unit_ "bad"
                                :: [Sample.unit_ "c"]))).
  { simpl. repeat constructor; simpl; intuition discriminate. }
  assert (Hpre : up_chain Sample.env [Sample.unit_ "a"] (world (mig Sample.u0)) 4).
  { apply (@up_chain_cons nat Sample.env (Sample.unit_ "a") [] 0 4 4 4).
    - exact (@sample_performs "a" Up 0 eq_refl).
    - reflexivity.
    - constructor. }
  split; [reflexivity|]. split; [exact Hnd|]. split; [exact Hpre|].
  split; [exact (sample_bad_throws 4)|].
  exact (@up_stops_at_failing_unit nat Sample.env [Sample.unit_ "a"]
           (Sample.unit_ "bad") [Sample.unit_ "c"] Sample.u0 4 7 Sample.boom
           eq_refl Hnd Hpre (sample_bad_throws 4)).
Defined.

Lemma up_twice_is_noop_witness :
  Umzug_up Sample.env Sample.two_units Sample.u0
    = (Ok Sample.two_units, Sample.after_up)
  /\ Umzug_pending Sample.two_units (executed_names Sample.after_up) = []
  /\ Umzug_up Sample.env Sample.two_units Sample.after_up = (Ok [], Sample.after_up).
Proof.
  assert (H : Umzug_up Sample.env Sample.two_units Sample.u0
              = (Ok Sample.two_units, Sample.after_up))
    by reflexivity.
  split; [exact H|].
  exact (@up_twice_is_noop nat Sample.env Sample.two_units Sample.two_units
           Sample.u0 Sample.after_up H).
Defined.

Lemma down_undoes_last_witness :
  executed_names Sample.after_up = ["a"] ++ ["b"]
  /\ find_unit Sample.two_units "b" = Some (Sample.unit_ "b")
  /\ performs Sample.env (Sample.unit_ "b") Down [] (world (mig Sample.after_up)) 12
  /\ write_unlog Sample.env "b" 12 = (Ok tt, 12)
  /\ exists t',
       Umzug_down Sample.env Sample.two_units Sample.after_up
       = (Ok [Sample.unit_ "b"],
          {| mig := {| world := 12; trace := t' |}; executed_names := ["a"] |})
       /\ file (Sample.unit_ "b") = "b"
       /\ actions t' = [("a", Up); ("b", Up); ("b", Down)]
       /\ ~ In "b" ["a"]
       /\ (forall x, x <> "b" -> In x ["a"] <-> In x ["a"; "b"])
       /\ (~ In "b" ["a"] -> ["a"] = ["a"]).
Proof.
  assert (Hp : performs Sample.env (Sample.unit_ "b") Down []
                 (world (mig Sample.after_up)) 12).
  { exact (@sample_performs "b" Down 8 eq_refl). }
  split; [reflexivity|]. split; [reflexivity|]. split; [exact Hp|].
  split; [reflexivity|].
  exact (@down_undoes_last nat Sample.env Sample.two_units Sample.after_up ["a"]
           "b" (Sample.unit_ "b") 12 12 eq_refl eq_refl Hp eq_refl).
Defined.

(** Options given as a string are spread character by character, and the
    unit is named by the default formatter. *)
Lemma string_options_are_spread :
  new_Migration Sample.env "a" (VStr "xy") Sample.st0
  = (Ok {| path := "/w/a";
           options := VObj None [("0", VStr "x"); ("1", VStr "y");
                                 ("migrations",
                                  VObj None [("nameFormatter",
                                              default_nameFormatter)])];
           file := "a" |}, Sample.st0).
Proof. reflexivity. Qed.
